(** * KeyRing orchestration layer of gopenpgp (crypto/keyring.go)

    A shallow embedding of [crypto/keyring.go].  The OpenPGP engine
    ([golang.org/x/crypto/openpgp]), the armor codec and the JSON decoder
    are collaborators that the file calls but does not define: they are
    gathered in the record [PgpEngine] and every definition and theorem is
    parametric in it.

    Conventions of the embedding.
    - A Go [error] is an [option error]: [None] is [nil].
    - A Go pointer that may be [nil] is an [option]; dereferencing [nil]
      panics, which is the outcome [Panic].
    - [*packet.PrivateKey] objects are shared and mutated in place
      ([Decrypt] flips [Encrypted]); they live in a heap indexed by
      pointers, and entities hold pointers.
    - Calls into the engine that have an effect outside the Go values at
      hand (decrypting a key, opening an encryption or signing stream on a
      writer, closing a stream, checking a detached signature) are recorded
      in a trace, oldest first. *)

From Stdlib Require Import List String Ascii Bool Arith ZArith Lia.
From Stdlib Require Import Strings.Byte.
Import ListNotations.

Set Implicit Arguments.
Local Open Scope string_scope.
Local Open Scope list_scope.

(** ** Errors *)

(** Go compares error values by identity.  The file compares against [nil]
    and [pgperrors.ErrSignatureExpired] only; its own errors are the
    package variable [errKeyringNotUnlocked] and values built in place with
    [errors.New].  Every other error an engine can return is an
    [EngineError]. *)
Inductive error : Type :=
| ErrSignatureExpired
| errKeyringNotUnlocked
| errorsNew (msg : string)
| EngineError (code : nat).

(** The condition [err != nil && err != pgperrors.ErrSignatureExpired] that
    guards every early return of the decrypt path. *)
Definition hard (err : option error) : bool :=
  match err with
  | None => false
  | Some ErrSignatureExpired => false
  | Some _ => true
  end.

(** The error values the file builds with [errors.New], under the names the
    specification gives them. *)
Definition NoPrivateKeyAvailable : error :=
  errorsNew "go-pm-crypto: cannot unlock key ring, no private key available".
Definition NotAPgpMessage : error :=
  errorsNew "pm-crypto: not an armored PGP message".
Definition NoKeyMaterial : error :=
  errorsNew "pm-crypto: key ring doesn't contain any key".
Definition AllKeysExpired : error :=
  errorsNew "all contacts keys are expired".

(** ** Data *)

Definition time := Z.
Definition ptr := nat.

(** The secret material behind [packet.PrivateKey.PrivateKey], as far as
    the type switch of [readFrom] tells it apart. *)
Inductive key_material : Type :=
| rsa_PrivateKey (id : nat)
| ecdsa_PrivateKey (id : nat)
| other_PrivateKey (id : nat).

(** [packet.PrivateKey]: [pk_PrivateKey] is [nil] while the key is
    encrypted. *)
Record packet_PrivateKey : Type := {
  Encrypted : bool;
  pk_PrivateKey : option key_material;
  pk_encryptedData : list byte
}.

Record packet_PublicKey : Type := {
  Fingerprint : list byte;
  KeyId : N
}.

(** [packet.Signature], the self-signature that binds a subkey. *)
Record packet_Signature : Type := {
  FlagsValid : bool;
  FlagCertify : bool;
  FlagSign : bool;
  FlagEncryptCommunications : bool;
  FlagEncryptStorage : bool;
  CreationTime : time;
  KeyLifetimeSecs : option N
}.

Record Subkey : Type := {
  sk_PublicKey : packet_PublicKey;
  sk_PrivateKey : option ptr;
  sk_Sig : packet_Signature
}.

Record Identity : Type := {
  Name : string;
  Email : string
}.

Record Entity : Type := {
  e_PrimaryKey : packet_PublicKey;
  e_PrivateKey : option ptr;
  e_Subkeys : list Subkey;
  e_Identities : list Identity
}.

Definition EntityList := list Entity.

Record KeyRing : Type := {
  entities : EntityList;
  FirstKeyID : string
}.

Record pmKeyObject : Type := {
  ko_ID : string;
  ko_Version : Z;
  ko_Flags : Z;
  ko_Fingerprint : string;
  ko_PublicKey : string;
  ko_PrivateKey : string;
  ko_Primary : Z
}.

(** An [io.Reader], by what draining it gives: the bytes it delivers and
    the error that ends it ([None] for [io.EOF]). *)
Record Reader : Type := {
  r_data : list byte;
  r_err : option error
}.

Definition strings_NewReader (s : string) : Reader :=
  {| r_data := list_byte_of_string s; r_err := None |}.

Definition bytes_NewReader (b : list byte) : Reader :=
  {| r_data := b; r_err := None |}.

Definition ioutil_ReadAll (r : Reader) : list byte * option error :=
  (r_data r, r_err r).

(** [openpgp.MessageDetails].  [SignatureError] is written by the engine
    when [UnverifiedBody] reaches its end; the field holds that final
    value. *)
Record MessageDetails : Type := {
  IsSigned : bool;
  SignedByKeyId : N;
  SignedBy : option packet_PublicKey;
  SignatureError : option error;
  UnverifiedBody : Reader
}.

Record Signature : Type := { md : MessageDetails }.

Record SignedString : Type := {
  String_ : string;
  Signed : option Signature
}.

Record armor_Block : Type := {
  Type_ : string;
  Body : Reader
}.

Definition PGPMessageHeader : string := "PGP MESSAGE".

(** [io.Writer] and [io.WriteCloser] values.  A write-closer is either a
    stream of the engine or the [armorEncryptWriter] of this file. *)
Definition Writer := nat.

Inductive WriteCloser : Type :=
| engine_stream (id : nat)
| armorEncryptWriter (aw ew : WriteCloser).

Inductive CipherFunction : Type := CipherAES256.

(** The closure [func() time.Time { return GetPmCrypto().GetTime() }]. *)
Inductive time_source : Type := PmCrypto_GetTime.

Record packet_Config : Type := {
  DefaultCipher : CipherFunction;
  Time : time_source
}.

Record FileHints : Type := {
  IsBinary : bool;
  FileName : string
}.

(** ** The world: the key heap, the clock and the trace of engine calls *)

Inductive sign_mode : Type :=
| ArmoredDetachSignText
| ArmoredDetachSign
| DetachSign.

Inductive event : Type :=
| EvKeyDecrypt (p : ptr) (passphrase : list byte) (res : option error)
| EvEncrypt (text : bool) (w : Writer) (to : list Entity)
            (signed : option Entity) (hints : FileHints) (config : packet_Config)
| EvDetachSign (mode : sign_mode) (w : Writer) (signer : Entity)
               (message : Reader) (config : packet_Config)
| EvCheckDetached (keyring : EntityList) (signed signature : Reader)
| EvClose (wc : nat).

Record world : Type := {
  heap : ptr -> packet_PrivateKey;
  clock : time;
  trace : list event
}.

Definition emit (ev : event) (w : world) : world :=
  {| heap := heap w; clock := clock w; trace := trace w ++ [ev] |}.

Definition store (p : ptr) (k : packet_PrivateKey) (w : world) : world :=
  {| heap := fun q => if Nat.eqb q p then k else heap w q;
     clock := clock w; trace := trace w |}.

(** ** The collaborators *)

(** What the file calls and does not define.  A call that depends on the
    state of the keys or on earlier calls takes the world it is made in. *)
Record PgpEngine : Type := {
  (* packet.PrivateKey.Decrypt: the material, or the error *)
  key_Decrypt : packet_PrivateKey -> list byte -> error + key_material;
  (* packet.Signature.KeyExpired *)
  KeyExpired : packet_Signature -> time -> bool;
  (* packet.NewECDSAPublicKey on the public half of the material *)
  NewECDSAPublicKey : time -> key_material -> packet_PublicKey;
  (* openpgp.ReadKeyRing and openpgp.ReadArmoredKeyRing *)
  openpgp_ReadKeyRing : Reader -> EntityList * option error;
  openpgp_ReadArmoredKeyRing : Reader -> EntityList * option error;
  (* openpgp.EncryptText (text = true) and openpgp.Encrypt (text = false) *)
  openpgp_Encrypt : world -> bool -> Writer -> list Entity -> option Entity ->
                    FileHints -> packet_Config ->
                    option WriteCloser * option error;
  (* openpgp.ArmoredDetachSignText, ArmoredDetachSign, DetachSign *)
  openpgp_DetachSign : world -> sign_mode -> Writer -> Entity -> Reader ->
                       packet_Config -> option error;
  (* openpgp.CheckArmoredDetachedSignature: the verdict, and what is left
     of the two readers *)
  openpgp_CheckArmoredDetachedSignature :
    world -> EntityList -> Reader -> Reader -> option error * (Reader * Reader);
  (* openpgp.ReadMessage *)
  openpgp_ReadMessage : world -> Reader -> EntityList ->
                        option MessageDetails * option error;
  (* armor.Decode *)
  armor_Decode : Reader -> option armor_Block * option error;
  (* armorUtils.Unarmor *)
  armorUtils_Unarmor : string -> list byte * option error;
  (* Close of a stream of the engine *)
  stream_Close : world -> nat -> option error;
  (* json.Unmarshal into a slice of pmKeyObject *)
  json_Unmarshal : list byte -> list pmKeyObject * option error
}.

(** ** The monad of the embedding: state passing with panics *)

Inductive outcome (A : Type) : Type :=
| Ret (a : A)
| Panic.
Arguments Panic {A}.

Definition M (A : Type) : Type := world -> outcome A * world.

Definition ret {A} (a : A) : M A := fun w => (Ret a, w).

Definition bind {A B} (m : M A) (f : A -> M B) : M B :=
  fun w => match m w with
           | (Ret a, w') => f a w'
           | (Panic, w') => (Panic, w')
           end.

Definition panic {A} : M A := fun w => (Panic, w).

Declare Scope go_scope.
Delimit Scope go_scope with go.
Notation "x <- m ;; k" := (bind m (fun x => k))
  (at level 61, m at next level, right associativity) : go_scope.
Notation "' pat <- m ;; k" := (bind m (fun x => match x with pat => k end))
  (at level 61, pat pattern, m at next level, right associativity) : go_scope.
Local Open Scope go_scope.

Definition get_heap : M (ptr -> packet_PrivateKey) := fun w => (Ret (heap w), w).
Definition time_Now : M time := fun w => (Ret (clock w), w).
Definition load (p : ptr) : M packet_PrivateKey := fun w => (Ret (heap w p), w).
Definition log (ev : event) : M unit := fun w => (Ret tt, emit ev w).
Definition write_key (p : ptr) (k : packet_PrivateKey) : M unit :=
  fun w => (Ret tt, store p k w).

(** ** The operations of keyring.go *)

Section KeyRingOps.

Variable eng : PgpEngine.

(** *** Signature *)

(** [Signature.Err] *)
Definition Signature_Err (s : Signature) : option error :=
  SignatureError (md s).

(** [KeyRing.GetEntities] *)
Definition GetEntities (kr : KeyRing) : EntityList := entities kr.

(** *** Calls into the engine *)

(** [key.Decrypt(passphrase)] on the key behind [p]: on success the key is
    rewritten in place, decrypted. *)
Definition PrivateKey_Decrypt (p : ptr) (passphrase : list byte) : M (option error) :=
  k <- load p ;;
  match key_Decrypt eng k passphrase with
  | inl e =>
      _ <- log (EvKeyDecrypt p passphrase (Some e)) ;;
      ret (Some e)
  | inr m =>
      _ <- write_key p {| Encrypted := false;
                          pk_PrivateKey := Some m;
                          pk_encryptedData := pk_encryptedData k |} ;;
      _ <- log (EvKeyDecrypt p passphrase None) ;;
      ret None
  end.

Definition call_Encrypt (text : bool) (w : Writer) (to : list Entity)
    (signed : option Entity) (hints : FileHints) (config : packet_Config)
  : M (option WriteCloser * option error) :=
  fun wd => (Ret (openpgp_Encrypt eng wd text w to signed hints config),
             emit (EvEncrypt text w to signed hints config) wd).

Definition call_DetachSign (mode : sign_mode) (w : Writer) (signer : Entity)
    (message : Reader) (config : packet_Config) : M (option error) :=
  fun wd => (Ret (openpgp_DetachSign eng wd mode w signer message config),
             emit (EvDetachSign mode w signer message config) wd).

Definition call_CheckArmoredDetachedSignature (keyring : EntityList)
    (signed signature : Reader) : M (option error * (Reader * Reader)) :=
  fun wd => (Ret (openpgp_CheckArmoredDetachedSignature eng wd keyring signed signature),
             emit (EvCheckDetached keyring signed signature) wd).

Definition call_ReadMessage (r : Reader) (keyring : EntityList)
  : M (option MessageDetails * option error) :=
  fun wd => (Ret (openpgp_ReadMessage eng wd r keyring), wd).

Definition call_stream_Close (id : nat) : M (option error) :=
  fun wd => (Ret (stream_Close eng wd id), emit (EvClose id) wd).

(** *** Selection of the signing entity *)

(** [e.PrivateKey != nil && !e.PrivateKey.Encrypted] *)
Definition is_unlocked (e : Entity) : M bool :=
  match e_PrivateKey e with
  | None => ret false
  | Some p => k <- load p ;; ret (negb (Encrypted k))
  end.

(** The loop of [Encrypt] (lines 155-161) and of [DetachedSign] (lines
    318-323): the first entity whose private key is present and not
    encrypted. *)
Fixpoint first_unlocked (es : list Entity) : M (option Entity) :=
  match es with
  | [] => ret None
  | e :: rest =>
      u <- is_unlocked e ;;
      if u then ret (Some e) else first_unlocked rest
  end.

(** [KeyRing.GetSigningEntity]: the same scan, with a decryption attempt
    on the way. *)
Fixpoint GetSigningEntity_loop (es : list Entity) (passphrase : string)
  : M (option Entity) :=
  match es with
  | [] => ret None
  | e :: rest =>
      match e_PrivateKey e with
      | None => GetSigningEntity_loop rest passphrase
      | Some p =>
          k <- load p ;;
          _ <- (if Encrypted k
                then _ <- PrivateKey_Decrypt p (list_byte_of_string passphrase) ;; ret tt
                else ret tt) ;;
          k' <- load p ;;
          if negb (Encrypted k') then ret (Some e)
          else GetSigningEntity_loop rest passphrase
      end
  end.

Definition GetSigningEntity (kr : KeyRing) (passphrase : string) : M (option Entity) :=
  GetSigningEntity_loop (entities kr) passphrase.

(** *** Encrypt *)

(** [EncryptCore] *)
Definition EncryptCore (w : Writer) (encryptEntities : list Entity)
    (signEntity : option Entity) (filename : string) (canonicalizeText : bool)
    (timeGenerator : time_source) : M (option WriteCloser * option error) :=
  let config := {| DefaultCipher := CipherAES256; Time := timeGenerator |} in
  let hints := {| IsBinary := negb canonicalizeText; FileName := filename |} in
  if canonicalizeText
  then call_Encrypt true w encryptEntities signEntity hints config
  else call_Encrypt false w encryptEntities signEntity hints config.

(** The loop of lines 147-150: it appends the entity of its first round
    and breaks. *)
Definition Encrypt_targets (es : EntityList) : list Entity :=
  match es with
  | [] => []
  | e :: _ => [] ++ [e]
  end.

(** [KeyRing.Encrypt] *)
Definition Encrypt (kr : KeyRing) (w : Writer) (sign : option KeyRing)
    (filename : string) (canonicalizeText : bool)
  : M (option WriteCloser * option error) :=
  let encryptEntities := Encrypt_targets (entities kr) in
  match sign with
  | Some s =>
      signEntity <- first_unlocked (entities s) ;;
      match signEntity with
      | None => ret (None, Some errKeyringNotUnlocked)
      | Some _ =>
          EncryptCore w encryptEntities signEntity filename canonicalizeText
                      PmCrypto_GetTime
      end
  | None =>
      EncryptCore w encryptEntities None filename canonicalizeText PmCrypto_GetTime
  end.

(** [armorEncryptWriter.Close], and [Close] of an engine stream. *)
Fixpoint Close (wc : WriteCloser) : M (option error) :=
  match wc with
  | engine_stream id => call_stream_Close id
  | armorEncryptWriter aw ew =>
      err <- Close ew ;;
      match err with
      | Some _ => ret err
      | None => Close aw
      end
  end.

(** *** DetachedSign and VerifyString *)

(** [KeyRing.DetachedSign] *)
Definition DetachedSign (kr : KeyRing) (w : Writer) (toSign : Reader)
    (canonicalizeText armored : bool) : M (option error) :=
  signEntity <- first_unlocked (entities kr) ;;
  match signEntity with
  | None => ret (Some errKeyringNotUnlocked)
  | Some e =>
      let config := {| DefaultCipher := CipherAES256; Time := PmCrypto_GetTime |} in
      if canonicalizeText
      then call_DetachSign ArmoredDetachSignText w e toSign config
      else if armored
           then call_DetachSign ArmoredDetachSign w e toSign config
           else call_DetachSign DetachSign w e toSign config
  end.

(** [err == nil || err == pgperrors.ErrSignatureExpired] *)
Definition tolerated (err : option error) : bool := negb (hard err).

(** The loop of [VerifyString] (lines 361-368).  The two readers are
    shared by the rounds; the result says whether the loop returned from
    the function, and with which [err]. *)
Fixpoint VerifyString_loop (keyring : EntityList) (es : list Entity)
    (messageReader signatureReader : Reader) (err : option error)
  : M (bool * option error) :=
  match es with
  | [] => ret (false, err)
  | e :: rest =>
      u <- is_unlocked e ;;
      if u then
        '(err', (messageReader', signatureReader')) <-
          call_CheckArmoredDetachedSignature keyring messageReader signatureReader ;;
        if tolerated err' then ret (true, err')
        else VerifyString_loop keyring rest messageReader' signatureReader' err'
      else VerifyString_loop keyring rest messageReader signatureReader err
  end.

(** [KeyRing.VerifyString] *)
Definition VerifyString (kr : KeyRing) (message signature : string)
    (sign : option KeyRing) : M (option error) :=
  let messageReader := strings_NewReader message in
  let signatureReader := strings_NewReader signature in
  '(returned, err) <-
    match sign with
    | Some s => VerifyString_loop (entities kr) (entities s)
                                  messageReader signatureReader None
    | None => ret (false, None)
    end ;;
  if returned then ret err
  else match err with
       | None => ret (Some errKeyringNotUnlocked)
       | Some _ => ret err
       end.

(** *** Unlock *)

(** The test on a subkey at line 396, the nil check apart. *)
Definition subkey_selected (subKey : Subkey) : bool :=
  negb (FlagsValid (sk_Sig subKey))
  || FlagEncryptStorage (sk_Sig subKey)
  || FlagEncryptCommunications (sk_Sig subKey).

(** The inner loop of lines 395-399. *)
Definition Unlock_subkeys (subkeys : list Subkey) (keys : list ptr) : list ptr :=
  fold_left
    (fun keys subKey =>
       match sk_PrivateKey subKey with
       | Some p => if subkey_selected subKey then keys ++ [p] else keys
       | None => keys
       end)
    subkeys keys.

(** The loop of lines 388-400: the list of keys to decrypt. *)
Definition Unlock_keys (kr : KeyRing) : list ptr :=
  fold_left
    (fun keys e =>
       let keys := match e_PrivateKey e with
                   | Some p => keys ++ [p]
                   | None => keys
                   end in
       Unlock_subkeys (e_Subkeys e) keys)
    (entities kr) [].

(** The loop of lines 408-416, with its two variables [err] and [n]. *)
Fixpoint Unlock_loop (keys : list ptr) (passphrase : list byte)
    (err : option error) (n : nat) : M (option error * nat) :=
  match keys with
  | [] => ret (err, n)
  | key :: rest =>
      k <- load key ;;
      if negb (Encrypted k) then Unlock_loop rest passphrase err n
      else
        err' <- PrivateKey_Decrypt key passphrase ;;
        match err' with
        | None => Unlock_loop rest passphrase err' (S n)
        | Some _ => Unlock_loop rest passphrase err' n
        end
  end.

(** [KeyRing.Unlock] *)
Definition Unlock (kr : KeyRing) (passphrase : list byte) : M (option error) :=
  let keys := Unlock_keys kr in
  if Nat.eqb (List.length keys) 0 then ret (Some NoPrivateKeyAvailable)
  else
    '(err, n) <- Unlock_loop keys passphrase None 0 ;;
    if Nat.eqb n 0 then ret err else ret None.

(** *** Decrypt *)

(** [KeyRing.Decrypt] *)
Definition Decrypt (kr : KeyRing) (r : Reader)
  : M (option Reader * option Signature * option error) :=
  '(md, err) <- call_ReadMessage r (entities kr) ;;
  if hard err then ret (None, None, err)
  else match md with
       | None => panic
       | Some md =>
           let decrypted := UnverifiedBody md in
           let signed := if IsSigned md then Some {| md := md |} else None in
           ret (Some decrypted, signed, err)
       end.

(** [KeyRing.DecryptArmored] *)
Definition DecryptArmored (kr : KeyRing) (r : Reader)
  : M (option Reader * option Signature * option error) :=
  let '(block, err) := armor_Decode eng r in
  if hard err then ret (None, None, err)
  else match block with
       | None => panic
       | Some block =>
           if negb (String.eqb (Type_ block) PGPMessageHeader)
           then ret (None, None, Some NotAPgpMessage)
           else Decrypt kr (Body block)
       end.

(** [KeyRing.DecryptString] *)
Definition DecryptString (kr : KeyRing) (encrypted : string)
  : M (SignedString * option error) :=
  '(r, signed, err) <- DecryptArmored kr (strings_NewReader encrypted) ;;
  if hard err then ret ({| String_ := encrypted; Signed := None |}, err)
  else match r with
       | None => panic
       | Some r =>
           let '(b, err) := ioutil_ReadAll r in
           if hard err then ret ({| String_ := encrypted; Signed := None |}, err)
           else
             let s := string_of_list_byte b in
             ret ({| String_ := s; Signed := signed |}, None)
       end.

(** *** Construction *)

(** The type switches of [readFrom] (lines 503-509 and 513-518): the
    public key that is assigned for a private key, which is rebuilt from
    the private one when that is an ECDSA key. *)
Definition rebuild_public (h : ptr -> packet_PrivateKey) (now : time)
    (pub : packet_PublicKey) (priv : option ptr) : packet_PublicKey :=
  match priv with
  | None => pub
  | Some p =>
      match pk_PrivateKey (h p) with
      | Some (rsa_PrivateKey _) => pub
      | Some (ecdsa_PrivateKey id) => NewECDSAPublicKey eng now (ecdsa_PrivateKey id)
      | _ => pub
      end
  end.

(** The body of the loop of lines 511-519 on its variable.  The loop
    ranges over [entity.Subkeys], a slice of [Subkey] values, so [subkey]
    is a copy of the element; this is the copy after the assignment to
    [subkey.PublicKey]. *)
Definition rebuild_subkey (h : ptr -> packet_PrivateKey) (now : time)
    (subkey : Subkey) : Subkey :=
  {| sk_PublicKey := rebuild_public h now (sk_PublicKey subkey) (sk_PrivateKey subkey);
     sk_PrivateKey := sk_PrivateKey subkey;
     sk_Sig := sk_Sig subkey |}.

(** The loop of lines 511-519: every round assigns to its copy, which is
    dropped at the end of the round, and the slice is never written. *)
Definition rebuild_subkeys (h : ptr -> packet_PrivateKey) (now : time)
    (subkeys : list Subkey) : list Subkey :=
  fold_left (fun slice subkey =>
               let copy := rebuild_subkey h now subkey in
               slice)
            subkeys subkeys.

(** A round of the loop of lines 501-521.  [entity] is a pointer, so the
    assignment to [entity.PrimaryKey] stays. *)
Definition rebuild_entity (h : ptr -> packet_PrivateKey) (now : time)
    (entity : Entity) : Entity :=
  {| e_PrimaryKey := rebuild_public h now (e_PrimaryKey entity) (e_PrivateKey entity);
     e_PrivateKey := e_PrivateKey entity;
     e_Subkeys := rebuild_subkeys h now (e_Subkeys entity);
     e_Identities := e_Identities entity |}.

(** [KeyRing.readFrom]: the ring after the call, and the error. *)
Definition readFrom (kr : KeyRing) (r : Reader) (armored : bool)
  : M (KeyRing * option error) :=
  let '(parsed, err) :=
    if armored then openpgp_ReadArmoredKeyRing eng r
    else openpgp_ReadKeyRing eng r in
  h <- get_heap ;;
  now <- time_Now ;;
  let parsed := map (rebuild_entity h now) parsed in
  match err with
  | Some _ => ret (kr, err)
  | None =>
      if Nat.eqb (List.length parsed) 0 then ret (kr, Some NoKeyMaterial)
      else ret ({| entities := entities kr ++ parsed;
                   FirstKeyID := FirstKeyID kr |}, None)
  end.

(** [&KeyRing{}] *)
Definition new_KeyRing : KeyRing := {| entities := []; FirstKeyID := "" |}.

(** [PmCrypto.BuildKeyRing] *)
Definition BuildKeyRing (binKeys : list byte) : M (KeyRing * option error) :=
  readFrom new_KeyRing (bytes_NewReader binKeys) false.

(** [PmCrypto.BuildKeyRingNoError] *)
Definition BuildKeyRingNoError (binKeys : list byte) : M KeyRing :=
  '(kr, _) <- BuildKeyRing binKeys ;; ret kr.

(** [PmCrypto.BuildKeyRingArmored] *)
Definition BuildKeyRingArmored (key : string) : M (KeyRing * option error) :=
  let '(keyRaw, _) := armorUtils_Unarmor eng key in
  let '(keyEntries, err) := openpgp_ReadKeyRing eng (bytes_NewReader keyRaw) in
  ret ({| entities := keyEntries; FirstKeyID := "" |}, err).

(** [ReadArmoredKeyRing] and [ReadKeyRing] *)
Definition ReadArmoredKeyRing (r : Reader) : M (KeyRing * option error) :=
  readFrom new_KeyRing r true.

Definition ReadKeyRing (r : Reader) : M (KeyRing * option error) :=
  readFrom new_KeyRing r false.

(** The loop of [UnmarshalJSON] (lines 575-580); [i] is the index of the
    first record of [keyObjs].  The error of [readFrom] is dropped. *)
Fixpoint UnmarshalJSON_loop (kr : KeyRing) (i : nat) (keyObjs : list pmKeyObject)
  : M KeyRing :=
  match keyObjs with
  | [] => ret kr
  | ko :: rest =>
      let kr := if Nat.eqb i 0
                then {| entities := entities kr; FirstKeyID := ko_ID ko |}
                else kr in
      '(kr, _) <- readFrom kr (strings_NewReader (ko_PrivateKey ko)) true ;;
      UnmarshalJSON_loop kr (S i) rest
  end.

(** [KeyRing.UnmarshalJSON] *)
Definition UnmarshalJSON (kr : KeyRing) (b : list byte) : M (KeyRing * option error) :=
  let kr := {| entities := []; FirstKeyID := FirstKeyID kr |} in
  let '(keyObjs, err) := json_Unmarshal eng b in
  match err with
  | Some _ => ret (kr, err)
  | None =>
      if Nat.eqb (List.length keyObjs) 0 then ret (kr, None)
      else kr <- UnmarshalJSON_loop kr 0 keyObjs ;; ret (kr, None)
  end.

(** *** FilterExpiredKeys *)

(** The loop over the subkeys of an entity (lines 641-647):
    [(hasExpired, hasUnexpired)]. *)
Definition scan_subkeys (now : time) (subkeys : list Subkey) : bool * bool :=
  fold_left
    (fun '(hasExpired, hasUnexpired) subkey =>
       if KeyExpired eng (sk_Sig subkey) now
       then (true, hasUnexpired)
       else (hasExpired, true))
    subkeys (false, false).

(** The loop over the entities of a ring (lines 638-653):
    [(keyRingHasUnexpiredEntity, keyRingHasTotallyExpiredEntity)]. *)
Definition scan_entities (now : time) (es : EntityList) : bool * bool :=
  fold_left
    (fun '(keyRingHasUnexpiredEntity, keyRingHasTotallyExpiredEntity) entity =>
       let '(hasExpired, hasUnexpired) := scan_subkeys now (e_Subkeys entity) in
       if hasExpired && negb hasUnexpired
       then (keyRingHasUnexpiredEntity, true)
       else if hasUnexpired
            then (true, keyRingHasTotallyExpiredEntity)
            else (keyRingHasUnexpiredEntity, keyRingHasTotallyExpiredEntity))
    es (false, false).

(** The loop over the rings (lines 635-659):
    [(filteredKeys, hasExpiredEntity)]. *)
Definition scan_rings (now : time) (contactKeys : list KeyRing)
  : list KeyRing * bool :=
  fold_left
    (fun '(filteredKeys, hasExpiredEntity) contactKeyRing =>
       let '(keyRingHasUnexpiredEntity, keyRingHasTotallyExpiredEntity) :=
         scan_entities now (GetEntities contactKeyRing) in
       if keyRingHasUnexpiredEntity
       then (filteredKeys ++ [contactKeyRing], hasExpiredEntity)
       else if keyRingHasTotallyExpiredEntity
            then (filteredKeys, true)
            else (filteredKeys, hasExpiredEntity))
    contactKeys ([], false).

(** [FilterExpiredKeys] *)
Definition FilterExpiredKeys (contactKeys : list KeyRing)
  : M (list KeyRing * option error) :=
  now <- time_Now ;;
  let '(filteredKeys, hasExpiredEntity) := scan_rings now contactKeys in
  if Nat.eqb (List.length filteredKeys) 0 && hasExpiredEntity
  then ret (filteredKeys, Some AllKeysExpired)
  else ret (filteredKeys, None).

(** *** Signature.IsBy *)

(** [==] on two fingerprints ([[20]byte] arrays). *)
Fixpoint fingerprint_eqb (a b : list byte) : bool :=
  match a, b with
  | [], [] => true
  | x :: a', y :: b' => Byte.eqb x y && fingerprint_eqb a' b'
  | _, _ => false
  end.

(** The loop of lines 88-93. *)
Fixpoint IsBy_fingerprint (es : list Entity) (fp : list byte) : bool :=
  match es with
  | [] => false
  | e :: rest =>
      if fingerprint_eqb (Fingerprint (e_PrimaryKey e)) fp then true
      else IsBy_fingerprint rest fp
  end.

(** The loop of lines 96-101. *)
Fixpoint IsBy_KeyId (es : list Entity) (id : N) : bool :=
  match es with
  | [] => false
  | e :: rest =>
      if N.eqb (KeyId (e_PrimaryKey e)) id then true
      else IsBy_KeyId rest id
  end.

(** [Signature.IsBy]; [SignedBy] stands for the public key of the signing
    key. *)
Definition Signature_IsBy (s : Signature) (kr : KeyRing) : bool :=
  match SignedBy (md s) with
  | Some signer => IsBy_fingerprint (entities kr) (Fingerprint signer)
  | None => IsBy_KeyId (entities kr) (SignedByKeyId (md s))
  end.

(** *** KeyIds *)

(** [KeyRing.KeyIds] *)
Definition KeyIds (kr : KeyRing) : list N :=
  fold_left (fun res e => res ++ [KeyId (e_PrimaryKey e)]) (entities kr) [].

(** *** DecryptStringIfNeeded *)

(** What is left of [s] after the prefix [p], when it starts with it. *)
Fixpoint strip_prefix (p s : string) : option string :=
  match p with
  | EmptyString => Some s
  | String c p' =>
      match s with
      | EmptyString => None
      | String d s' => if Ascii.eqb c d then strip_prefix p' s' else None
      end
  end.

(** Whether [needle] occurs in [s]. *)
Fixpoint occurs (needle s : string) : bool :=
  match strip_prefix needle s with
  | Some _ => true
  | None =>
      match s with
      | EmptyString => false
      | String _ s' => occurs needle s'
      end
  end.

Definition armor_begin : string := "-----BEGIN " ++ PGPMessageHeader ++ "-----".
Definition armor_end : string := "-----END " ++ PGPMessageHeader ++ "-----".

(** [re.MatchString(data)] for the expression of line 290,
    [^-----BEGIN PGP MESSAGE-----(?s:.+)-----END PGP MESSAGE-----]: the
    text starts with the first line of the armor, at least one character
    follows, and the last line of the armor occurs after it. *)
Definition matches_armored_message (data : string) : bool :=
  match strip_prefix armor_begin data with
  | Some (String _ rest) => occurs armor_end rest
  | _ => false
  end.

(** [KeyRing.DecryptStringIfNeeded] *)
Definition DecryptStringIfNeeded (kr : KeyRing) (data : string)
  : M (string * option error) :=
  if matches_armored_message data then
    '(signed, err) <- DecryptString kr data ;;
    ret (String_ signed, err)
  else ret (data, None).

End KeyRingOps.

(** ** Armored writers

    [EncryptArmored] and [WriteArmoredPublicKey] open an armor stream on
    the writer they are given.  The stream is a stream of the engine: it
    is closed by [Close (engine_stream id)], and used as a writer it is the
    writer [id].  Opening it and serializing an entity into it are
    collaborators of their own. *)
Record ArmorWriters : Type := {
  (* armorUtils.ArmorWithTypeBuffered and armor.Encode: the stream, and
     the error *)
  armor_open : world -> Writer -> string -> nat * option error;
  (* openpgp.Entity.Serialize into a stream *)
  Entity_Serialize : world -> Entity -> nat -> option error
}.

(** [openpgp.PublicKeyType] *)
Definition PublicKeyType : string := "PGP PUBLIC KEY BLOCK".

(** The value [&armorEncryptWriter{aw: aw, ew: ew}] as [EncryptArmored]
    builds it: [ew] is what [Encrypt] returned. *)
Record armorEncryptWriter_value : Type := {
  aw_of : WriteCloser;
  ew_of : option WriteCloser
}.

Section ArmoredOps.

Variable eng : PgpEngine.
Variable arm : ArmorWriters.

Definition call_armor_open (w : Writer) (blockType : string)
  : M (nat * option error) :=
  fun wd => (Ret (armor_open arm wd w blockType), wd).

Definition call_Serialize (e : Entity) (aw : nat) : M (option error) :=
  fun wd => (Ret (Entity_Serialize arm wd e aw), wd).

(** [KeyRing.EncryptArmored] *)
Definition EncryptArmored (kr : KeyRing) (w : Writer) (sign : option KeyRing)
  : M (option armorEncryptWriter_value * option error) :=
  '(aw, err) <- call_armor_open w PGPMessageHeader ;;
  match err with
  | Some _ => ret (None, err)
  | None =>
      '(ew, err) <- Encrypt eng kr aw sign "" false ;;
      match err with
      | Some _ =>
          _ <- Close eng (engine_stream aw) ;;
          ret (None, err)
      | None =>
          ret (Some {| aw_of := engine_stream aw; ew_of := ew |}, None)
      end
  end.

(** The loop of [WriteArmoredPublicKey] (lines 469-474): the error of the
    first entity that cannot be serialized, after which the stream is
    closed and the function returns. *)
Fixpoint WriteArmoredPublicKey_loop (es : list Entity) (aw : nat)
  : M (option error) :=
  match es with
  | [] => ret None
  | e :: rest =>
      err <- call_Serialize e aw ;;
      match err with
      | Some _ =>
          _ <- Close eng (engine_stream aw) ;;
          ret err
      | None => WriteArmoredPublicKey_loop rest aw
      end
  end.

(** [KeyRing.WriteArmoredPublicKey] *)
Definition WriteArmoredPublicKey (kr : KeyRing) (w : Writer) : M (option error) :=
  '(aw, err) <- call_armor_open w PublicKeyType ;;
  match err with
  | Some _ => ret err
  | None =>
      err <- WriteArmoredPublicKey_loop (entities kr) aw ;;
      match err with
      | Some _ => ret err
      | None => Close eng (engine_stream aw)
      end
  end.

End ArmoredOps.

(** ** Vocabulary of the properties *)

Section Vocabulary.

Variable eng : PgpEngine.

(** A private key that is present and decrypted. *)
Definition unlocked_in (h : ptr -> packet_PrivateKey) (e : Entity) : Prop :=
  exists p, e_PrivateKey e = Some p /\ Encrypted (h p) = false.

(** The words of the specification: an entity is unexpired when one of its
    subkeys has not expired, and totally expired when it has a subkey and
    all its subkeys have expired; a ring is kept when one of its entities
    is unexpired. *)
Definition entity_unexpired (now : time) (e : Entity) : Prop :=
  exists sk, In sk (e_Subkeys e) /\ KeyExpired eng (sk_Sig sk) now = false.

Definition entity_totally_expired (now : time) (e : Entity) : Prop :=
  e_Subkeys e <> [] /\
  forall sk, In sk (e_Subkeys e) -> KeyExpired eng (sk_Sig sk) now = true.

Definition ring_kept (now : time) (kr : KeyRing) : Prop :=
  exists e, In e (entities kr) /\ entity_unexpired now e.

Definition ring_has_totally_expired_entity (now : time) (kr : KeyRing) : Prop :=
  exists e, In e (entities kr) /\ entity_totally_expired now e.

(** The same as tests. *)
Definition subkey_expiredb (now : time) (sk : Subkey) : bool :=
  KeyExpired eng (sk_Sig sk) now.

Definition entity_unexpiredb (now : time) (e : Entity) : bool :=
  existsb (fun sk => negb (subkey_expiredb now sk)) (e_Subkeys e).

Definition entity_totally_expiredb (now : time) (e : Entity) : bool :=
  existsb (subkey_expiredb now) (e_Subkeys e) && negb (entity_unexpiredb now e).

Definition ring_keptb (now : time) (kr : KeyRing) : bool :=
  existsb (entity_unexpiredb now) (entities kr).

Definition ring_has_totally_expired_entityb (now : time) (kr : KeyRing) : bool :=
  existsb (entity_totally_expiredb now) (entities kr).

(** A decryption attempt: the key and what the engine answered. *)
Definition attempt : Type := (ptr * option error)%type.

Definition decrypt_event (passphrase : list byte) (a : attempt) : event :=
  EvKeyDecrypt (fst a) passphrase (snd a).

Definition succeeded (a : attempt) : bool :=
  match snd a with
  | None => true
  | Some _ => false
  end.

(** The keys that the attempts decrypted. *)
Definition newly_decrypted (attempts : list attempt) : list ptr :=
  map fst (filter succeeded attempts).

(** The decryption attempts recorded in a trace. *)
Definition decrypt_attempts (evs : list event) : list ptr :=
  flat_map (fun ev => match ev with
                      | EvKeyDecrypt p _ _ => [p]
                      | _ => []
                      end) evs.

(** The private keys of a subkey list that line 396 selects. *)
Definition selected_subkeys (subkeys : list Subkey) : list ptr :=
  flat_map (fun subKey =>
              match sk_PrivateKey subKey with
              | Some p => if subkey_selected subKey then [p] else []
              | None => []
              end) subkeys.

Definition primary_key (e : Entity) : list ptr :=
  match e_PrivateKey e with
  | Some p => [p]
  | None => []
  end.

(** The components of a ring that [Unlock] is about: the private key of a
    primary key, and the private key of a subkey whose flags are invalid or
    mark it for the encryption of storage or of communications. *)
Definition unlock_component (kr : KeyRing) (p : ptr) : Prop :=
  exists e, In e (entities kr) /\
    (e_PrivateKey e = Some p \/
     exists subKey, In subKey (e_Subkeys e) /\
       sk_PrivateKey subKey = Some p /\
       (FlagsValid (sk_Sig subKey) = false \/
        FlagEncryptStorage (sk_Sig subKey) = true \/
        FlagEncryptCommunications (sk_Sig subKey) = true)).

(** What [DecryptString] gives back with an error. *)
Definition untouched (encrypted : string) : SignedString :=
  {| String_ := encrypted; Signed := None |}.

(** The handle [Decrypt] makes of the details of a message. *)
Definition handle_of (details : MessageDetails) : option Signature :=
  if IsSigned details then Some {| md := details |} else None.

End Vocabulary.

(** ** Vocabulary of the further properties *)

Section MoreVocabulary.

Variable eng : PgpEngine.

(** The passphrase decrypts the key, or the engine rejects it. *)
Definition opens (k : packet_PrivateKey) (passphrase : list byte) : Prop :=
  exists m, key_Decrypt eng k passphrase = inr m.

Definition rejects (k : packet_PrivateKey) (passphrase : list byte) : Prop :=
  exists e, key_Decrypt eng k passphrase = inl e.

(** Every entity of a list is locked: its private key is absent or
    encrypted. *)
Definition all_locked (h : ptr -> packet_PrivateKey) (es : list Entity) : Prop :=
  forall e, In e es -> ~ unlocked_in h e.

(** The mode [DetachedSign] picks from its two flags. *)
Definition DetachedSign_mode (canonicalizeText armored : bool) : sign_mode :=
  if canonicalizeText then ArmoredDetachSignText
  else if armored then ArmoredDetachSign else DetachSign.

(** The configuration of every encryption and signature. *)
Definition the_config : packet_Config :=
  {| DefaultCipher := CipherAES256; Time := PmCrypto_GetTime |}.

(** A check of a detached signature against the entities [keyring]. *)
Definition is_check_of (keyring : EntityList) (ev : event) : Prop :=
  exists signed signature, ev = EvCheckDetached keyring signed signature.

(** What a record of [UnmarshalJSON] adds to the ring: the entities of its
    armored private key, or nothing when the engine reports an error. *)
Definition record_entities (h : ptr -> packet_PrivateKey) (now : time)
    (ko : pmKeyObject) : list Entity :=
  let '(parsed, err) :=
    openpgp_ReadArmoredKeyRing eng (strings_NewReader (ko_PrivateKey ko)) in
  match err with
  | Some _ => []
  | None => map (rebuild_entity eng h now) parsed
  end.

(** An entity that has a decrypted ECDSA private key, of its own or of a
    subkey. *)
Definition is_ecdsa (h : ptr -> packet_PrivateKey) (priv : option ptr) : Prop :=
  exists p id, priv = Some p /\ pk_PrivateKey (h p) = Some (ecdsa_PrivateKey id).

End MoreVocabulary.

Section ArmoredVocabulary.

Variable arm : ArmorWriters.

(** The error of the first entity, in the order of the list, that cannot
    be serialized into the stream [aw]. *)
Fixpoint first_Serialize_error (w : world) (es : list Entity) (aw : nat)
  : option error :=
  match es with
  | [] => None
  | e :: rest =>
      match Entity_Serialize arm w e aw with
      | Some err => Some err
      | None => first_Serialize_error w rest aw
      end
  end.

End ArmoredVocabulary.

(** ** A small engine and rings to run the definitions on

    Keys are protected by the passphrase stored in [pk_encryptedData];
    subkey signatures expire [KeyLifetimeSecs] seconds after their
    creation; a message is the plain text itself. *)
Module Demo.

Definition bytes_eqb (a b : list byte) : bool :=
  String.eqb (string_of_list_byte a) (string_of_list_byte b).

Definition demo_key_Decrypt (k : packet_PrivateKey) (passphrase : list byte)
  : error + key_material :=
  if bytes_eqb (pk_encryptedData k) passphrase
  then inr (rsa_PrivateKey 0)
  else inl (EngineError 1).

Definition demo_KeyExpired (sig : packet_Signature) (now : time) : bool :=
  match KeyLifetimeSecs sig with
  | None => false
  | Some secs => Z.ltb (CreationTime sig + Z.of_N secs) now
  end.

Definition demo_public : packet_PublicKey := {| Fingerprint := []; KeyId := 0%N |}.

(** The details of a message whose signature the engine found expired. *)
Definition expired_details (r : Reader) : MessageDetails :=
  {| IsSigned := true; SignedByKeyId := 0%N; SignedBy := None;
     SignatureError := Some ErrSignatureExpired;
     UnverifiedBody := {| r_data := r_data r;
                          r_err := Some ErrSignatureExpired |} |}.

(** The details of a message whose body breaks off. *)
Definition broken_details (r : Reader) : MessageDetails :=
  {| IsSigned := false; SignedByKeyId := 0%N; SignedBy := None;
     SignatureError := None;
     UnverifiedBody := {| r_data := []; r_err := Some (EngineError 7) |} |}.

(** A message that starts with ["X"] carries an expired signature, one
    that starts with ["!"] is not readable, one that starts with ["?"]
    breaks off in its body. *)
Definition demo_ReadMessage (w : world) (r : Reader) (keyring : EntityList)
  : option MessageDetails * option error :=
  match string_of_list_byte (r_data r) with
  | String "X"%char _ => (Some (expired_details r), Some ErrSignatureExpired)
  | String "!"%char _ => (None, Some (EngineError 2))
  | String "?"%char _ => (Some (broken_details r), None)
  | _ => (Some {| IsSigned := false; SignedByKeyId := 0%N; SignedBy := None;
                  SignatureError := None; UnverifiedBody := r |}, None)
  end.

(** The armor of a text is the text; the empty text is no armor. *)
Definition demo_armor_Decode (r : Reader) : option armor_Block * option error :=
  match r_data r with
  | [] => (None, Some (EngineError 3))
  | _ => (Some {| Type_ := PGPMessageHeader; Body := r |}, None)
  end.

(** A signature that reads ["old"] has expired, one that reads ["ok"] is
    good, any other is wrong. *)
Definition demo_Check (w : world) (keyring : EntityList) (signed signature : Reader)
  : option error * (Reader * Reader) :=
  let drained := (bytes_NewReader [], bytes_NewReader []) in
  if bytes_eqb (r_data signature) (list_byte_of_string "old")
  then (Some ErrSignatureExpired, drained)
  else if bytes_eqb (r_data signature) (list_byte_of_string "ok")
       then (None, drained)
       else (Some (EngineError 4), drained).

(** Stream 7 cannot be closed. *)
Definition demo_stream_Close (w : world) (id : nat) : option error :=
  if Nat.eqb id 7 then Some (EngineError 5) else None.

(** An empty input holds no key, any other holds one public key. *)
Definition demo_ReadKeyRing (r : Reader) : EntityList * option error :=
  match r_data r with
  | [] => ([], None)
  | _ => ([{| e_PrimaryKey := demo_public; e_PrivateKey := None;
              e_Subkeys := []; e_Identities := [] |}], None)
  end.

(** The only JSON text that is understood is the empty array. *)
Definition demo_json_Unmarshal (b : list byte) : list pmKeyObject * option error :=
  if bytes_eqb b (list_byte_of_string "[]")
  then ([], None)
  else ([], Some (EngineError 6)).

Definition engine : PgpEngine :=
  {| key_Decrypt := demo_key_Decrypt;
     KeyExpired := demo_KeyExpired;
     NewECDSAPublicKey := fun _ _ => demo_public;
     openpgp_ReadKeyRing := demo_ReadKeyRing;
     openpgp_ReadArmoredKeyRing := demo_ReadKeyRing;
     openpgp_Encrypt := fun _ _ _ _ _ _ _ => (Some (engine_stream 1), None);
     openpgp_DetachSign := fun _ _ _ _ _ _ => None;
     openpgp_CheckArmoredDetachedSignature := demo_Check;
     openpgp_ReadMessage := demo_ReadMessage;
     armor_Decode := demo_armor_Decode;
     armorUtils_Unarmor := fun s => (list_byte_of_string s, None);
     stream_Close := demo_stream_Close;
     json_Unmarshal := demo_json_Unmarshal |}.

Definition locked (pass : string) : packet_PrivateKey :=
  {| Encrypted := true; pk_PrivateKey := None;
     pk_encryptedData := list_byte_of_string pass |}.

Definition unlocked : packet_PrivateKey :=
  {| Encrypted := false; pk_PrivateKey := Some (rsa_PrivateKey 0);
     pk_encryptedData := [] |}.

(** Key 0 is locked with ["a"], key 1 with ["b"], key 2 is unlocked, every
    other key is locked with ["c"]. *)
Definition keys : ptr -> packet_PrivateKey :=
  fun p => match p with
           | 0 => locked "a"
           | 1 => locked "b"
           | 2 => unlocked
           | _ => locked "c"
           end.

Definition start : world := {| heap := keys; clock := 100%Z; trace := [] |}.

Definition sig (valid storage comms : bool) (created : time) (life : option N)
  : packet_Signature :=
  {| FlagsValid := valid; FlagCertify := false; FlagSign := false;
     FlagEncryptCommunications := comms; FlagEncryptStorage := storage;
     CreationTime := created; KeyLifetimeSecs := life |}.

Definition subkey (priv : option ptr) (s : packet_Signature) : Subkey :=
  {| sk_PublicKey := demo_public; sk_PrivateKey := priv; sk_Sig := s |}.

Definition entity (priv : option ptr) (subkeys : list Subkey) : Entity :=
  {| e_PrimaryKey := demo_public; e_PrivateKey := priv;
     e_Subkeys := subkeys; e_Identities := [] |}.

Definition ring (es : list Entity) : KeyRing :=
  {| entities := es; FirstKeyID := "" |}.

(** A ring locked under ["a"] (primary) and ["b"] (encryption subkey). *)
Definition locked_ring : KeyRing :=
  ring [entity (Some 0) [subkey (Some 1) (sig true true true 0%Z None)]].

(** A ring whose only private key is already decrypted. *)
Definition unlocked_ring : KeyRing := ring [entity (Some 2) []].

(** A ring of public keys only, with two entities. *)
Definition public_ring : KeyRing :=
  ring [entity None [subkey None (sig true true true 0%Z None)];
        entity None []].

(** A ring whose one subkey expired at time 10, and one with a live one. *)
Definition expired_ring : KeyRing :=
  ring [entity None [subkey None (sig true true true 0%Z (Some 10%N))]].

Definition live_ring : KeyRing :=
  ring [entity None [subkey None (sig true true true 0%Z (Some 10%N));
                     subkey None (sig true true true 0%Z None)]].

End Demo.

(** ** Armor streams to run the armored writers on

    The armor stream on writer [n] is stream [n + 10]; writer 9 cannot be
    armored; the entity with key id 13 cannot be serialized. *)
Module DemoMore.

Definition armor : ArmorWriters :=
  {| armor_open := fun _ w _ =>
       if Nat.eqb w 9 then (0, Some (EngineError 8)) else (w + 10, None);
     Entity_Serialize := fun _ e _ =>
       if N.eqb (KeyId (e_PrimaryKey e)) 13 then Some (EngineError 9) else None |}.

Definition entity_13 : Entity :=
  {| e_PrimaryKey := {| Fingerprint := []; KeyId := 13%N |};
     e_PrivateKey := None; e_Subkeys := []; e_Identities := [] |}.

Definition armored_text : string :=
  "-----BEGIN PGP MESSAGE-----body-----END PGP MESSAGE-----".

Definition empty_armor : string :=
  "-----BEGIN PGP MESSAGE----------END PGP MESSAGE-----".

End DemoMore.

(** ** An engine that records verdicts in the details, and more rings

    As [Demo.engine], but a message that starts with ["B"] has a wrong
    signature that the engine records in the details only, and a message
    that starts with ["Y"] is read with [ErrSignatureExpired] while the
    details record a wrong signature. *)
Module DemoVerdicts.

Definition bad_details (r : Reader) : MessageDetails :=
  {| IsSigned := true; SignedByKeyId := 0%N; SignedBy := None;
     SignatureError := Some (EngineError 10);
     UnverifiedBody := r |}.

Definition ReadMessage (w : world) (r : Reader) (keyring : EntityList)
  : option MessageDetails * option error :=
  match string_of_list_byte (r_data r) with
  | String "B"%char _ => (Some (bad_details r), None)
  | String "Y"%char _ => (Some (bad_details r), Some ErrSignatureExpired)
  | _ => Demo.demo_ReadMessage w r keyring
  end.

Definition engine : PgpEngine :=
  {| key_Decrypt := key_Decrypt Demo.engine;
     KeyExpired := KeyExpired Demo.engine;
     NewECDSAPublicKey := NewECDSAPublicKey Demo.engine;
     openpgp_ReadKeyRing := openpgp_ReadKeyRing Demo.engine;
     openpgp_ReadArmoredKeyRing := openpgp_ReadArmoredKeyRing Demo.engine;
     openpgp_Encrypt := openpgp_Encrypt Demo.engine;
     openpgp_DetachSign := openpgp_DetachSign Demo.engine;
     openpgp_CheckArmoredDetachedSignature :=
       openpgp_CheckArmoredDetachedSignature Demo.engine;
     openpgp_ReadMessage := ReadMessage;
     armor_Decode := armor_Decode Demo.engine;
     armorUtils_Unarmor := armorUtils_Unarmor Demo.engine;
     stream_Close := stream_Close Demo.engine;
     json_Unmarshal := json_Unmarshal Demo.engine |}.

(** A signer ring with two unlocked entities. *)
Definition two_unlocked : KeyRing :=
  Demo.ring [Demo.entity (Some 2) []; Demo.entity (Some 2) []].

(** A heap of decrypted ECDSA keys, and an entity with such a key for its
    primary key (key id 7) and for its subkey (key id 8). *)
Definition ecdsa_keys : ptr -> packet_PrivateKey :=
  fun p => {| Encrypted := false; pk_PrivateKey := Some (ecdsa_PrivateKey p);
              pk_encryptedData := [] |}.

Definition ecdsa_subkey : Subkey :=
  {| sk_PublicKey := {| Fingerprint := []; KeyId := 8%N |};
     sk_PrivateKey := Some 1;
     sk_Sig := Demo.sig true true true 0%Z None |}.

Definition ecdsa_entity : Entity :=
  {| e_PrimaryKey := {| Fingerprint := []; KeyId := 7%N |};
     e_PrivateKey := Some 0;
     e_Subkeys := [ecdsa_subkey];
     e_Identities := [] |}.

(** The world of [Demo.start] at time 5, before the subkey of
    [Demo.expired_ring] expires. *)
Definition early : world := {| heap := Demo.keys; clock := 5%Z; trace := [] |}.

End DemoVerdicts.

(** ** Properties *)

Section Properties.

Variable eng : PgpEngine.

(** *** Closing streams *)

(** [Close] returns and only extends the trace. *)
Lemma Close_runs (wc : WriteCloser) :
  forall w, exists err evs,
    Close eng wc w =
    (Ret err, {| heap := heap w; clock := clock w; trace := trace w ++ evs |}).
Proof.
  induction wc as [id | aw IHaw ew IHew]; intros w.
  - exists (stream_Close eng w id), [EvClose id]. reflexivity.
  - destruct (IHew w) as (err1 & evs1 & H1).
    cbn [Close]. unfold bind. rewrite H1.
    destruct err1 as [e |].
    + exists (Some e), evs1. reflexivity.
    + destruct (IHaw {| heap := heap w; clock := clock w;
                        trace := trace w ++ evs1 |}) as (err2 & evs2 & H2).
      exists err2, (evs1 ++ evs2). rewrite H2. cbn. now rewrite app_assoc.
Qed.

(** C9.  [armorEncryptWriter.Close] closes the inner encryption stream
    [ew] first, in the world it is called in.  When that fails, the call
    returns this error in the world that closing [ew] left: the armor
    stream [aw] is not closed.  When it succeeds, the armor stream is
    closed next, in the world that closing [ew] left, and its result is the
    result of the call. *)
Theorem armorEncryptWriter_Close_inner_first (aw ew : WriteCloser) (w : world) :
  exists err1 evs1,
    let w1 := {| heap := heap w; clock := clock w; trace := trace w ++ evs1 |} in
    Close eng ew w = (Ret err1, w1) /\
    match err1 with
    | Some e => Close eng (armorEncryptWriter aw ew) w = (Ret (Some e), w1)
    | None =>
        exists err2 evs2,
          Close eng aw w1 =
          (Ret err2, {| heap := heap w; clock := clock w;
                        trace := (trace w ++ evs1) ++ evs2 |}) /\
          Close eng (armorEncryptWriter aw ew) w =
          (Ret err2, {| heap := heap w; clock := clock w;
                        trace := (trace w ++ evs1) ++ evs2 |})
    end.
Proof.
  destruct (Close_runs ew w) as (err1 & evs1 & H1).
  exists err1, evs1. cbn zeta. split; [exact H1 |].
  cbn [Close]. unfold bind. rewrite H1.
  destruct err1 as [e |]; [reflexivity |].
  destruct (Close_runs aw {| heap := heap w; clock := clock w;
                             trace := trace w ++ evs1 |}) as (err2 & evs2 & H2).
  exists err2, evs2. cbn in H2 |- *. now rewrite H2.
Qed.

(** The same on two streams of the engine, with the trace spelled out. *)
Lemma armorEncryptWriter_Close_streams (a e : nat) (w : world) :
  Close eng (armorEncryptWriter (engine_stream a) (engine_stream e)) w =
  match stream_Close eng w e with
  | Some err => (Ret (Some err), emit (EvClose e) w)
  | None => (Ret (stream_Close eng (emit (EvClose e) w) a),
             emit (EvClose a) (emit (EvClose e) w))
  end.
Proof.
  cbn. unfold bind, call_stream_Close.
  destruct (stream_Close eng w e); reflexivity.
Qed.

(** *** The signing entity *)

Lemma is_unlocked_run (e : Entity) (w : world) :
  exists b, is_unlocked e w = (Ret b, w) /\ (b = true <-> unlocked_in (heap w) e).
Proof.
  unfold is_unlocked, unlocked_in.
  destruct (e_PrivateKey e) as [p |].
  - exists (negb (Encrypted (heap w p))). split; [reflexivity |].
    split.
    + intros H. exists p. split; [reflexivity |].
      now apply negb_true_iff.
    + intros (q & Hq & Hen). injection Hq as <-. now rewrite Hen.
  - exists false. split; [reflexivity |].
    split; [discriminate |]. intros (q & Hq & _). discriminate.
Qed.

(** The scan for a signing entity reads the keys and changes nothing.  It
    ends on [None] exactly when no entity is unlocked, and otherwise on the
    first unlocked entity. *)
Lemma first_unlocked_run (es : list Entity) (w : world) :
  exists r, first_unlocked es w = (Ret r, w) /\
    match r with
    | None => forall e, In e es -> ~ unlocked_in (heap w) e
    | Some e =>
        exists before after,
          es = before ++ e :: after /\ unlocked_in (heap w) e /\
          forall e', In e' before -> ~ unlocked_in (heap w) e'
    end.
Proof.
  induction es as [| e rest IH].
  - exists None. split; [reflexivity |]. intros e [].
  - destruct (is_unlocked_run e w) as (b & Hb & Hiff).
    cbn [first_unlocked]. unfold bind. rewrite Hb.
    destruct b.
    + exists (Some e). split; [reflexivity |].
      exists [], rest. split; [reflexivity |]. split; [now apply Hiff |].
      intros e' [].
    + destruct IH as (r & Hr & Hspec). exists r. split; [exact Hr |].
      assert (Hno : ~ unlocked_in (heap w) e).
      { intros Hu. apply Hiff in Hu. discriminate. }
      destruct r as [e1 |].
      * destruct Hspec as (before & after & -> & Hu & Hbefore).
        exists (e :: before), after. split; [reflexivity |]. split; [exact Hu |].
        intros e' [<- | Hin]; [exact Hno | now apply Hbefore].
      * intros e' [<- | Hin]; [exact Hno | now apply Hspec].
Qed.

Lemma first_unlocked_none (es : list Entity) (w : world) :
  (forall e, In e es -> ~ unlocked_in (heap w) e) ->
  first_unlocked es w = (Ret None, w).
Proof.
  intros Hno. destruct (first_unlocked_run es w) as (r & Hr & Hspec).
  destruct r as [e |]; [| exact Hr].
  destruct Hspec as (before & after & -> & Hu & _).
  exfalso. apply (Hno e); [| exact Hu].
  apply in_or_app. right. now left.
Qed.

(** C5.  When no entity of the signer ring has a private key that is
    present and already decrypted, [Encrypt] with that signer and
    [DetachedSign] on that ring return [errKeyringNotUnlocked], with no
    stream, in the world they were called in: no call to the engine was
    made, so nothing was written, and no key was changed.  Neither function
    has a passphrase among its arguments. *)
Theorem signing_requires_unlocked_ring
    (kr signer : KeyRing) (out : Writer) (filename : string)
    (toSign : Reader) (canonicalizeText armored : bool) (w : world) :
  (forall e, In e (entities signer) -> ~ unlocked_in (heap w) e) ->
  Encrypt eng kr out (Some signer) filename canonicalizeText w
    = (Ret (None, Some errKeyringNotUnlocked), w) /\
  DetachedSign eng signer out toSign canonicalizeText armored w
    = (Ret (Some errKeyringNotUnlocked), w).
Proof.
  intros Hno. unfold Encrypt, DetachedSign, bind.
  rewrite (first_unlocked_none _ _ Hno). split; reflexivity.
Qed.

(** *** The recipient *)

(** C6.  On a ring whose first entity is [e], [Encrypt] either stops on
    [errKeyringNotUnlocked] before any call to the engine, or makes one
    call to the engine's encryption, and the recipients of that call are
    [e] alone; without a signer it is the second.  The entities after the
    first have no influence on the call. *)
Theorem Encrypt_first_entity_only
    (e : Entity) (rest : list Entity) (fk : string) (out : Writer)
    (sign : option KeyRing) (filename : string) (canonicalizeText : bool)
    (w : world) :
  let kr := {| entities := e :: rest; FirstKeyID := fk |} in
  let hints := {| IsBinary := negb canonicalizeText; FileName := filename |} in
  let config := {| DefaultCipher := CipherAES256; Time := PmCrypto_GetTime |} in
  (Encrypt eng kr out sign filename canonicalizeText w
     = (Ret (None, Some errKeyringNotUnlocked), w) /\ sign <> None
   \/
   exists signEntity,
     Encrypt eng kr out sign filename canonicalizeText w
     = (Ret (openpgp_Encrypt eng w canonicalizeText out [e] signEntity hints config),
        emit (EvEncrypt canonicalizeText out [e] signEntity hints config) w) /\
     (sign = None -> signEntity = None)) /\
  (forall rest' fk',
     Encrypt eng {| entities := e :: rest'; FirstKeyID := fk' |}
             out sign filename canonicalizeText w
     = Encrypt eng kr out sign filename canonicalizeText w).
Proof.
  cbn zeta. split; [| reflexivity].
  unfold Encrypt, EncryptCore, bind. cbn [entities Encrypt_targets app].
  destruct sign as [s |].
  - destruct (first_unlocked_run (entities s) w) as (r & Hr & _).
    rewrite Hr. destruct r as [se |].
    + right. exists (Some se). split; [| discriminate].
      destruct canonicalizeText; reflexivity.
    + left. split; [reflexivity | discriminate].
  - right. exists None. split; [| reflexivity].
    destruct canonicalizeText; reflexivity.
Qed.

(** *** FilterExpiredKeys *)

Lemma entity_unexpiredb_spec now e :
  entity_unexpiredb eng now e = true <-> entity_unexpired eng now e.
Proof.
  unfold entity_unexpiredb, entity_unexpired, subkey_expiredb.
  rewrite existsb_exists. split; intros (sk & Hin & H); exists sk; split; auto.
  - now apply negb_true_iff.
  - now apply negb_true_iff.
Qed.

Lemma entity_totally_expiredb_spec now e :
  entity_totally_expiredb eng now e = true <-> entity_totally_expired eng now e.
Proof.
  unfold entity_totally_expiredb, entity_totally_expired.
  rewrite andb_true_iff, negb_true_iff, existsb_exists. split.
  - intros ((sk & Hin & Hexp) & Hno). split.
    + intros Hnil. rewrite Hnil in Hin. destruct Hin.
    + intros sk' Hin'. destruct (KeyExpired eng (sk_Sig sk') now) eqn:E; [reflexivity |].
      assert (Hu : entity_unexpiredb eng now e = true).
      { apply entity_unexpiredb_spec. now exists sk'. }
      congruence.
  - intros (Hne & Hall). split.
    + destruct (e_Subkeys e) as [| sk l] eqn:E; [congruence |].
      exists sk. split; [now left |]. apply Hall. now left.
    + destruct (entity_unexpiredb eng now e) eqn:E; [| reflexivity].
      apply entity_unexpiredb_spec in E. destruct E as (sk & Hin & Hf).
      rewrite (Hall sk Hin) in Hf. discriminate.
Qed.

Lemma ring_keptb_spec now kr : ring_keptb eng now kr = true <-> ring_kept eng now kr.
Proof.
  unfold ring_keptb, ring_kept. rewrite existsb_exists.
  split; intros (e & Hin & H); exists e; split; auto;
    now apply entity_unexpiredb_spec.
Qed.

Lemma ring_has_totally_expired_entityb_spec now kr :
  ring_has_totally_expired_entityb eng now kr = true
  <-> ring_has_totally_expired_entity eng now kr.
Proof.
  unfold ring_has_totally_expired_entityb, ring_has_totally_expired_entity.
  rewrite existsb_exists.
  split; intros (e & Hin & H); exists e; split; auto;
    now apply entity_totally_expiredb_spec.
Qed.

(** What the three loops compute. *)
Lemma scan_subkeys_eq now subkeys :
  scan_subkeys eng now subkeys =
  (existsb (subkey_expiredb eng now) subkeys,
   existsb (fun sk => negb (subkey_expiredb eng now sk)) subkeys).
Proof.
  unfold scan_subkeys.
  enough (G : forall a b,
    fold_left
      (fun '(hasExpired, hasUnexpired) subkey =>
         if KeyExpired eng (sk_Sig subkey) now
         then (true, hasUnexpired) else (hasExpired, true))
      subkeys (a, b)
    = (a || existsb (subkey_expiredb eng now) subkeys,
       b || existsb (fun sk => negb (subkey_expiredb eng now sk)) subkeys))
    by apply G.
  induction subkeys as [| sk l IH]; intros a b; cbn [fold_left existsb].
  - now rewrite !orb_false_r.
  - unfold subkey_expiredb at 1 3.
    destruct (KeyExpired eng (sk_Sig sk) now); rewrite IH;
      destruct a, b; reflexivity.
Qed.

Lemma scan_entities_eq now es :
  scan_entities eng now es =
  (existsb (entity_unexpiredb eng now) es, existsb (entity_totally_expiredb eng now) es).
Proof.
  unfold scan_entities.
  enough (G : forall a b,
    fold_left
      (fun '(keyRingHasUnexpiredEntity, keyRingHasTotallyExpiredEntity) entity =>
         let '(hasExpired, hasUnexpired) :=
           scan_subkeys eng now (e_Subkeys entity) in
         if hasExpired && negb hasUnexpired
         then (keyRingHasUnexpiredEntity, true)
         else if hasUnexpired
              then (true, keyRingHasTotallyExpiredEntity)
              else (keyRingHasUnexpiredEntity, keyRingHasTotallyExpiredEntity))
      es (a, b)
    = (a || existsb (entity_unexpiredb eng now) es,
       b || existsb (entity_totally_expiredb eng now) es))
    by apply G.
  induction es as [| e l IH]; intros a b; cbn [fold_left existsb].
  - now rewrite !orb_false_r.
  - rewrite scan_subkeys_eq.
    assert (Ht : entity_totally_expiredb eng now e =
                 existsb (subkey_expiredb eng now) (e_Subkeys e)
                 && negb (entity_unexpiredb eng now e)) by reflexivity.
    rewrite Ht.
    change (existsb (fun sk => negb (subkey_expiredb eng now sk)) (e_Subkeys e))
      with (entity_unexpiredb eng now e).
    destruct (existsb (subkey_expiredb eng now) (e_Subkeys e));
      destruct (entity_unexpiredb eng now e);
      cbn; rewrite IH; destruct a, b; reflexivity.
Qed.

Lemma scan_rings_eq now contactKeys :
  scan_rings eng now contactKeys =
  (filter (ring_keptb eng now) contactKeys,
   existsb (fun kr => negb (ring_keptb eng now kr)
                      && ring_has_totally_expired_entityb eng now kr) contactKeys).
Proof.
  unfold scan_rings.
  enough (G : forall acc b,
    fold_left
      (fun '(filteredKeys, hasExpiredEntity) contactKeyRing =>
         let '(keyRingHasUnexpiredEntity, keyRingHasTotallyExpiredEntity) :=
           scan_entities eng now (GetEntities contactKeyRing) in
         if keyRingHasUnexpiredEntity
         then (filteredKeys ++ [contactKeyRing], hasExpiredEntity)
         else if keyRingHasTotallyExpiredEntity
              then (filteredKeys, true)
              else (filteredKeys, hasExpiredEntity))
      contactKeys (acc, b)
    = (acc ++ filter (ring_keptb eng now) contactKeys,
       b || existsb (fun kr => negb (ring_keptb eng now kr)
                               && ring_has_totally_expired_entityb eng now kr)
                    contactKeys))
    by apply (G [] false).
  induction contactKeys as [| kr l IH]; intros acc b; cbn [fold_left existsb filter].
  - now rewrite app_nil_r, orb_false_r.
  - rewrite scan_entities_eq. unfold GetEntities.
    fold (ring_keptb eng now kr). fold (ring_has_totally_expired_entityb eng now kr).
    destruct (ring_keptb eng now kr); cbn.
    + rewrite IH. now rewrite <- app_assoc.
    + destruct (ring_has_totally_expired_entityb eng now kr); cbn; rewrite IH;
        now rewrite ?orb_true_r.
Qed.

(** C3.  [FilterExpiredKeys] returns, in their order, the rings that have
    an entity with a subkey that has not expired.  Its error is
    [AllKeysExpired] exactly when it returns no ring and some ring of the
    input has a totally expired entity, and there is no error otherwise:
    a ring with neither kind of entity is dropped without a trace. *)
Theorem FilterExpiredKeys_policy (contactKeys : list KeyRing) (w : world) :
  exists err,
    FilterExpiredKeys eng contactKeys w
      = (Ret (filter (ring_keptb eng (clock w)) contactKeys, err), w) /\
    (forall kr, In kr (filter (ring_keptb eng (clock w)) contactKeys)
                <-> In kr contactKeys /\ ring_kept eng (clock w) kr) /\
    (err = Some AllKeysExpired <->
       filter (ring_keptb eng (clock w)) contactKeys = [] /\
       exists kr, In kr contactKeys /\
                  ring_has_totally_expired_entity eng (clock w) kr) /\
    (err <> Some AllKeysExpired -> err = None).
Proof.
  set (now := clock w).
  assert (Hkept : forall kr, In kr (filter (ring_keptb eng now) contactKeys)
                             <-> In kr contactKeys /\ ring_kept eng now kr).
  { intros kr. rewrite filter_In. now rewrite ring_keptb_spec. }
  unfold FilterExpiredKeys, bind, time_Now. fold now.
  rewrite scan_rings_eq.
  set (kept := filter (ring_keptb eng now) contactKeys) in *.
  set (flag := existsb _ contactKeys).
  assert (Hflag : kept = [] ->
            (flag = true <->
             exists kr, In kr contactKeys /\
                        ring_has_totally_expired_entity eng now kr)).
  { intros Hnil. unfold flag. rewrite existsb_exists.
    split.
    - intros (kr & Hin & H). apply andb_true_iff in H. destruct H as [_ H].
      exists kr. split; [exact Hin |].
      now apply ring_has_totally_expired_entityb_spec.
    - intros (kr & Hin & H). exists kr. split; [exact Hin |].
      apply andb_true_iff. split.
      + apply negb_true_iff. destruct (ring_keptb eng now kr) eqn:E; [| reflexivity].
        assert (Hk : In kr kept) by (apply filter_In; auto).
        rewrite Hnil in Hk. destruct Hk.
      + now apply ring_has_totally_expired_entityb_spec. }
  destruct kept as [| k l] eqn:Ek; cbn [List.length Nat.eqb andb].
  - destruct flag eqn:Ef.
    + exists (Some AllKeysExpired). split; [reflexivity |].
      split; [exact Hkept |]. split.
      * split; [intros _ | reflexivity].
        split; [reflexivity |]. now apply Hflag.
      * intros H. now elim H.
    + exists None. split; [reflexivity |]. split; [exact Hkept |]. split.
      * split; [discriminate |]. intros [_ H].
        apply Hflag in H; [discriminate | reflexivity].
      * reflexivity.
  - exists None. split; [reflexivity |]. split; [exact Hkept |]. split.
    + split; [discriminate |]. intros [H _]. discriminate.
    + reflexivity.
Qed.

(** *** Unlock *)

Lemma decrypt_attempts_events passphrase (attempts : list attempt) :
  decrypt_attempts (map (decrypt_event passphrase) attempts) = map fst attempts.
Proof.
  unfold decrypt_attempts.
  induction attempts as [| a l IH]; [reflexivity |].
  cbn [map flat_map decrypt_event app]. now rewrite IH.
Qed.

Lemma last_cons {A} (x d : A) (l : list A) : last (x :: l) d = last l x.
Proof.
  revert x d. induction l as [| y l IH]; intros x d; [reflexivity |].
  change (last (x :: y :: l) d) with (last (y :: l) d).
  now rewrite (IH y d), (IH y x).
Qed.

Lemma PrivateKey_Decrypt_run (p : ptr) (passphrase : list byte) (w : world) :
  PrivateKey_Decrypt eng p passphrase w =
  match key_Decrypt eng (heap w p) passphrase with
  | inl e => (Ret (Some e), emit (EvKeyDecrypt p passphrase (Some e)) w)
  | inr m =>
      (Ret None,
       emit (EvKeyDecrypt p passphrase None)
            (store p {| Encrypted := false; pk_PrivateKey := Some m;
                        pk_encryptedData := pk_encryptedData (heap w p) |} w))
  end.
Proof.
  unfold PrivateKey_Decrypt, bind, load.
  destruct (key_Decrypt eng (heap w p) passphrase); reflexivity.
Qed.

(** What the loop of [Unlock] does from any state of its variables: the
    attempts it makes, the error and the count it ends with, and the heap
    it leaves. *)
Lemma Unlock_loop_run (passphrase : list byte) (keys : list ptr) :
  forall (err : option error) (n : nat) (w : world),
  exists (attempts : list attempt) (h' : ptr -> packet_PrivateKey),
    Unlock_loop eng keys passphrase err n w
      = (Ret (last (map snd attempts) err,
              n + List.length (newly_decrypted attempts)),
         {| heap := h'; clock := clock w;
            trace := trace w ++ map (decrypt_event passphrase) attempts |}) /\
    (forall p, In p (map fst attempts)
               <-> In p keys /\ Encrypted (heap w p) = true) /\
    (forall p, Encrypted (h' p) = true -> Encrypted (heap w p) = true) /\
    (forall p, In p (newly_decrypted attempts)
               <-> Encrypted (heap w p) = true /\ Encrypted (h' p) = false) /\
    NoDup (newly_decrypted attempts) /\
    (attempts = [] -> h' = heap w).
Proof.
  induction keys as [| key rest IH]; intros err n w.
  - exists [], (heap w).
    split; [| split; [| split; [| split; [| split]]]].
    + cbn. rewrite app_nil_r, Nat.add_0_r. destruct w; reflexivity.
    + intros p. cbn. tauto.
    + auto.
    + intros p. cbn. split; [tauto | intros [H1 H2]; congruence].
    + constructor.
    + reflexivity.
  - cbn [Unlock_loop]. unfold bind at 1. unfold load at 1.
    destruct (Encrypted (heap w key)) eqn:Ekey; cbn [negb].
    + (* an attempt is made *)
      unfold bind at 1. rewrite PrivateKey_Decrypt_run.
      destruct (key_Decrypt eng (heap w key) passphrase) as [e | m].
      * (* it fails *)
        destruct (IH (Some e) n (emit (EvKeyDecrypt key passphrase (Some e)) w))
          as (attempts & h' & Hrun & Hatt & Hmono & Hnew & Hnd & Hnil).
        exists ((key, Some e) :: attempts), h'.
        rewrite Hrun. cbn [heap emit clock trace] in *.
        split; [| split; [| split; [| split; [| split]]]].
        -- rewrite map_cons, last_cons. cbn [map decrypt_event fst snd].
           rewrite <- app_assoc. reflexivity.
        -- intros p. cbn [map fst In]. rewrite Hatt. split.
           ++ intros [<- | [Hin Hen]]; auto.
           ++ intros [[<- | Hin] Hen]; auto.
        -- exact Hmono.
        -- exact Hnew.
        -- exact Hnd.
        -- discriminate.
      * (* it succeeds *)
        set (k' := {| Encrypted := false; pk_PrivateKey := Some m;
                      pk_encryptedData := pk_encryptedData (heap w key) |}).
        destruct (IH None (S n)
                     (emit (EvKeyDecrypt key passphrase None) (store key k' w)))
          as (attempts & h' & Hrun & Hatt & Hmono & Hnew & Hnd & Hnil).
        cbn [heap emit store clock trace] in *.
        assert (Hstore : forall q,
                  Encrypted (if Nat.eqb q key then k' else heap w q) = true
                  <-> q <> key /\ Encrypted (heap w q) = true).
        { intros q. destruct (Nat.eqb_spec q key) as [-> | Hne].
          - cbn. split; [discriminate | intros [H _]; now elim H].
          - tauto. }
        exists ((key, None) :: attempts), h'.
        rewrite Hrun.
        split; [| split; [| split; [| split; [| split]]]].
        -- rewrite map_cons, last_cons. cbn [map decrypt_event fst snd].
           rewrite <- app_assoc.
           unfold newly_decrypted. cbn [filter succeeded snd map List.length].
           rewrite Nat.add_succ_r. reflexivity.
        -- intros p. cbn [map fst In]. rewrite Hatt, Hstore. split.
           ++ intros [<- | [Hin [_ Hen]]]; auto.
           ++ intros [[<- | Hin] Hen]; auto.
              destruct (Nat.eq_dec p key) as [-> | Hne]; auto.
        -- intros p Hp. apply Hmono in Hp. now apply Hstore in Hp.
        -- intros p. unfold newly_decrypted in *.
           cbn [filter succeeded snd map fst In].
           rewrite Hnew, Hstore. split.
           ++ intros [<- | [[_ Hen] Hdec]]; auto.
              split; [exact Ekey |].
              destruct (Encrypted (h' key)) eqn:E; [| reflexivity].
              apply Hmono, Hstore in E. destruct E as [E _]. now elim E.
           ++ intros [Hen Hdec].
              destruct (Nat.eq_dec key p) as [-> | Hne]; auto.
        -- unfold newly_decrypted in *. cbn [filter succeeded snd map fst].
           constructor; [| exact Hnd].
           intros Hin. apply Hnew, proj1, Hstore in Hin.
           destruct Hin as [Hin _]. now elim Hin.
        -- discriminate.
    + (* the key is already decrypted *)
      destruct (IH err n w) as (attempts & h' & Hrun & Hatt & Hmono & Hnew & Hnd & Hnil).
      exists attempts, h'. split; [exact Hrun |].
      split; [| split; [| split; [| split]]]; auto.
      intros p. rewrite Hatt. cbn [In]. split.
      * intros [Hin Hen]; auto.
      * intros [[<- | Hin] Hen]; [congruence | auto].
Qed.

Lemma Unlock_subkeys_eq (subkeys : list Subkey) :
  forall keys, Unlock_subkeys subkeys keys = keys ++ selected_subkeys subkeys.
Proof.
  unfold Unlock_subkeys, selected_subkeys.
  induction subkeys as [| sk l IH]; intros keys; cbn [fold_left flat_map].
  - now rewrite app_nil_r.
  - rewrite IH.
    destruct (sk_PrivateKey sk) as [p |]; [| reflexivity].
    destruct (subkey_selected sk); [| reflexivity].
    now rewrite <- app_assoc.
Qed.

Lemma Unlock_keys_eq (kr : KeyRing) :
  Unlock_keys kr =
  flat_map (fun e => primary_key e ++ selected_subkeys (e_Subkeys e)) (entities kr).
Proof.
  unfold Unlock_keys.
  enough (G : forall keys,
    fold_left
      (fun keys e =>
         let keys := match e_PrivateKey e with
                     | Some p => keys ++ [p]
                     | None => keys
                     end in
         Unlock_subkeys (e_Subkeys e) keys)
      (entities kr) keys
    = keys ++ flat_map (fun e => primary_key e ++ selected_subkeys (e_Subkeys e))
                       (entities kr))
    by apply (G []).
  induction (entities kr) as [| e l IH]; intros keys; cbn [fold_left flat_map].
  - now rewrite app_nil_r.
  - rewrite IH, Unlock_subkeys_eq. unfold primary_key.
    destruct (e_PrivateKey e) as [p |]; now rewrite <- ?app_assoc.
Qed.

Lemma subkey_selected_spec (subKey : Subkey) :
  subkey_selected subKey = true <->
  FlagsValid (sk_Sig subKey) = false \/
  FlagEncryptStorage (sk_Sig subKey) = true \/
  FlagEncryptCommunications (sk_Sig subKey) = true.
Proof.
  unfold subkey_selected. rewrite !orb_true_iff, negb_true_iff. tauto.
Qed.

Lemma Unlock_keys_spec (kr : KeyRing) (p : ptr) :
  In p (Unlock_keys kr) <-> unlock_component kr p.
Proof.
  rewrite Unlock_keys_eq, in_flat_map. unfold unlock_component.
  split.
  - intros (e & He & Hin). exists e. split; [exact He |].
    apply in_app_or in Hin. destruct Hin as [Hin | Hin].
    + left. unfold primary_key in Hin.
      destruct (e_PrivateKey e) as [q |]; [| destruct Hin].
      destruct Hin as [-> | []]. reflexivity.
    + right. unfold selected_subkeys in Hin. apply in_flat_map in Hin.
      destruct Hin as (sk & Hsk & Hin). exists sk. split; [exact Hsk |].
      destruct (sk_PrivateKey sk) as [q |]; [| destruct Hin].
      destruct (subkey_selected sk) eqn:Esel; [| destruct Hin].
      destruct Hin as [-> | []]. split; [reflexivity |].
      now apply subkey_selected_spec.
  - intros (e & He & Hcase). exists e. split; [exact He |].
    apply in_or_app. destruct Hcase as [Hp | (sk & Hsk & Hp & Hflags)].
    + left. unfold primary_key. rewrite Hp. now left.
    + right. unfold selected_subkeys. apply in_flat_map.
      exists sk. split; [exact Hsk |]. rewrite Hp.
      apply subkey_selected_spec in Hflags. rewrite Hflags. now left.
Qed.

(** A run of [Unlock]: the error it returns, the attempts it makes on the
    way and the heap it leaves. *)
Lemma Unlock_run (kr : KeyRing) (passphrase : list byte) (w : world) :
  exists (attempts : list attempt) (h' : ptr -> packet_PrivateKey),
    Unlock eng kr passphrase w
      = (Ret (match Unlock_keys kr with
              | [] => Some NoPrivateKeyAvailable
              | _ :: _ =>
                  if Nat.eqb (List.length (newly_decrypted attempts)) 0
                  then last (map snd attempts) None
                  else None
              end),
         {| heap := h'; clock := clock w;
            trace := trace w ++ map (decrypt_event passphrase) attempts |}) /\
    (forall p, In p (map fst attempts)
               <-> In p (Unlock_keys kr) /\ Encrypted (heap w p) = true) /\
    (forall p, In p (newly_decrypted attempts)
               <-> Encrypted (heap w p) = true /\ Encrypted (h' p) = false) /\
    NoDup (newly_decrypted attempts) /\
    (attempts = [] -> h' = heap w).
Proof.
  unfold Unlock.
  destruct (Unlock_keys kr) as [| key rest] eqn:Ekeys.
  - exists [], (heap w). cbn [List.length Nat.eqb].
    split; [| split; [| split; [| split]]].
    + unfold ret. cbn. rewrite app_nil_r. destruct w; reflexivity.
    + intros p. cbn. tauto.
    + intros p. cbn. split; [tauto | intros [H1 H2]; congruence].
    + constructor.
    + reflexivity.
  - destruct (Unlock_loop_run passphrase (key :: rest) None 0 w)
      as (attempts & h' & Hrun & Hatt & _ & Hnew & Hnd & Hnil).
    exists attempts, h'. cbn [List.length Nat.eqb].
    unfold bind. rewrite Hrun. cbn [Nat.add].
    split; [| auto].
    destruct (Nat.eqb (List.length (newly_decrypted attempts)) 0); reflexivity.
Qed.

Lemma last_Some_split (attempts : list attempt) (e : error) :
  last (map snd attempts) None = Some e ->
  exists before p, attempts = before ++ [(p, Some e)].
Proof.
  destruct attempts as [| a l] using rev_ind; [discriminate |].
  rewrite map_app. cbn [map]. rewrite last_last.
  intros H. exists l, (fst a). destruct a as [p r]. cbn in *. now subst.
Qed.

(** C2.  [Unlock] returns, having made some attempts to decrypt keys.
    With [n] the number of keys that these attempts decrypted (the keys
    that were encrypted before the call and are not after it): when [n] is
    positive the call returns no error, whatever the other attempts
    answered; and when the call returns an error [n] is zero, and the
    error is either [NoPrivateKeyAvailable], on a ring with no key to
    decrypt, or the answer of the last attempt. *)
Theorem Unlock_partial_success (kr : KeyRing) (passphrase : list byte) (w : world) :
  exists (attempts : list attempt) (h' : ptr -> packet_PrivateKey)
         (r : option error),
    let n := List.length (newly_decrypted attempts) in
    Unlock eng kr passphrase w
      = (Ret r, {| heap := h'; clock := clock w;
                   trace := trace w ++ map (decrypt_event passphrase) attempts |}) /\
    NoDup (newly_decrypted attempts) /\
    (forall p, In p (newly_decrypted attempts)
               <-> Encrypted (heap w p) = true /\ Encrypted (h' p) = false) /\
    (0 < n -> r = None) /\
    (forall e, r = Some e ->
       n = 0 /\
       (Unlock_keys kr = [] /\ attempts = [] /\ e = NoPrivateKeyAvailable
        \/ exists before p, attempts = before ++ [(p, Some e)])).
Proof.
  destruct (Unlock_run kr passphrase w)
    as (attempts & h' & Hrun & Hatt & Hnew & Hnd & Hnil).
  exists attempts, h'. eexists. cbn zeta.
  split; [exact Hrun |]. split; [exact Hnd |]. split; [exact Hnew |].
  assert (Hempty : Unlock_keys kr = [] -> attempts = []).
  { intros Hk. destruct attempts as [| a l]; [reflexivity |].
    destruct (proj1 (Hatt (fst a)) (or_introl eq_refl)) as [Hin _].
    rewrite Hk in Hin. destruct Hin. }
  destruct (Unlock_keys kr) as [| key rest].
  - rewrite (Hempty eq_refl). cbn. split; [lia |].
    intros e [= <-]. split; [reflexivity |]. left. auto.
  - destruct (Nat.eqb_spec (List.length (newly_decrypted attempts)) 0) as [Hz | Hnz].
    + split; [lia |]. intros e He. split; [exact Hz |]. right.
      now apply last_Some_split.
    + split; [reflexivity | discriminate].
Qed.

(** C7, as the code has it.  The keys [Unlock] considers are the private
    keys of the primary keys and the private keys of the subkeys whose
    flags are invalid or mark them for encryption.  It attempts to decrypt
    exactly those of them that are still encrypted when it is called.  On
    a ring with no such key it returns [NoPrivateKeyAvailable], having
    attempted nothing and changed nothing. *)
Theorem Unlock_attempts (kr : KeyRing) (passphrase : list byte) (w : world) :
  exists (attempts : list attempt) (h' : ptr -> packet_PrivateKey)
         (r : option error),
    Unlock eng kr passphrase w
      = (Ret r, {| heap := h'; clock := clock w;
                   trace := trace w ++ map (decrypt_event passphrase) attempts |}) /\
    (forall p, In p (Unlock_keys kr) <-> unlock_component kr p) /\
    (forall p, In p (map fst attempts)
               <-> unlock_component kr p /\ Encrypted (heap w p) = true) /\
    ((forall p, ~ unlock_component kr p) ->
       r = Some NoPrivateKeyAvailable /\ attempts = [] /\ h' = heap w).
Proof.
  destruct (Unlock_run kr passphrase w)
    as (attempts & h' & Hrun & Hatt & Hnew & Hnd & Hnil).
  exists attempts, h'. eexists.
  split; [exact Hrun |]. split; [apply Unlock_keys_spec |]. split.
  - intros p. rewrite Hatt. now rewrite Unlock_keys_spec.
  - intros Hnone.
    assert (Hk : Unlock_keys kr = []).
    { destruct (Unlock_keys kr) as [| key rest] eqn:E; [reflexivity |].
      exfalso. apply (Hnone key). apply Unlock_keys_spec. rewrite E. now left. }
    assert (Ha : attempts = []).
    { destruct attempts as [| a l]; [reflexivity |].
      destruct (proj1 (Hatt (fst a)) (or_introl eq_refl)) as [Hin _].
      rewrite Hk in Hin. destruct Hin. }
    rewrite Hk. auto.
Qed.

(** *** VerifyString *)

Lemma is_unlocked_false (e : Entity) (w : world) :
  ~ unlocked_in (heap w) e -> is_unlocked e w = (Ret false, w).
Proof.
  intros Hno. destruct (is_unlocked_run e w) as (b & Hb & Hiff).
  destruct b; [| exact Hb]. exfalso. now apply Hno, Hiff.
Qed.

Lemma is_unlocked_true (e : Entity) (w : world) :
  unlocked_in (heap w) e -> is_unlocked e w = (Ret true, w).
Proof.
  intros Hu. destruct (is_unlocked_run e w) as (b & Hb & Hiff).
  apply Hiff in Hu. now subst b.
Qed.

(** The loop passes over locked entities without touching its variables. *)
Lemma VerifyString_loop_skip keyring (before rest : list Entity)
    (messageReader signatureReader : Reader) (err : option error) (w : world) :
  (forall e, In e before -> ~ unlocked_in (heap w) e) ->
  VerifyString_loop eng keyring (before ++ rest) messageReader signatureReader err w
  = VerifyString_loop eng keyring rest messageReader signatureReader err w.
Proof.
  induction before as [| e l IH]; intros Hno; [reflexivity |].
  cbn [app VerifyString_loop]. unfold bind at 1.
  rewrite is_unlocked_false by (apply Hno; now left).
  apply IH. intros e' Hin. apply Hno. now right.
Qed.


(** *** Decrypt and DecryptString *)

Lemma Decrypt_run (kr : KeyRing) (r : Reader) (w : world) :
  Decrypt eng kr r w =
  let '(details, err) := openpgp_ReadMessage eng w r (entities kr) in
  if hard err then (Ret (None, None, err), w)
  else match details with
       | None => (Panic, w)
       | Some details =>
           (Ret (Some (UnverifiedBody details), handle_of details, err), w)
       end.
Proof.
  unfold Decrypt, bind, call_ReadMessage.
  destruct (openpgp_ReadMessage eng w r (entities kr)) as [details err].
  destruct (hard err); [reflexivity |].
  destruct details; reflexivity.
Qed.

(** [DecryptString], stage by stage: the armor, the message, the body. *)
Lemma DecryptString_run (kr : KeyRing) (encrypted : string) (w : world) :
  DecryptString eng kr encrypted w =
  let '(block, err0) := armor_Decode eng (strings_NewReader encrypted) in
  if hard err0 then (Ret (untouched encrypted, err0), w)
  else match block with
       | None => (Panic, w)
       | Some block =>
           if negb (String.eqb (Type_ block) PGPMessageHeader)
           then (Ret (untouched encrypted, Some NotAPgpMessage), w)
           else
             let '(details, err1) :=
               openpgp_ReadMessage eng w (Body block) (entities kr) in
             if hard err1 then (Ret (untouched encrypted, err1), w)
             else match details with
                  | None => (Panic, w)
                  | Some details =>
                      let body := UnverifiedBody details in
                      if hard (r_err body)
                      then (Ret (untouched encrypted, r_err body), w)
                      else (Ret ({| String_ := string_of_list_byte (r_data body);
                                    Signed := handle_of details |}, None), w)
                  end
       end.
Proof.
  unfold DecryptString, DecryptArmored, bind.
  destruct (armor_Decode eng (strings_NewReader encrypted)) as [block err0].
  destruct (hard err0) eqn:E0.
  - unfold ret. rewrite E0. reflexivity.
  - destruct block as [block |]; [| reflexivity].
    destruct (negb (String.eqb (Type_ block) PGPMessageHeader)); [reflexivity |].
    rewrite Decrypt_run.
    destruct (openpgp_ReadMessage eng w (Body block) (entities kr))
      as [details err1].
    destruct (hard err1) eqn:E1.
    + rewrite E1. reflexivity.
    + destruct details as [details |]; [| reflexivity].
      rewrite E1. unfold ioutil_ReadAll.
      destruct (hard (r_err (UnverifiedBody details))); reflexivity.
Qed.

Lemma hard_Some (e : error) : hard (Some e) = true <-> e <> ErrSignatureExpired.
Proof. destruct e; cbn; split; congruence. Qed.

(** C1, as the code has it.  [Decrypt]: when the engine reads the message
    with the error [ErrSignatureExpired] and hands out the details of the
    message, the call hands out the stream of the decrypted content and
    the handle of the signature, next to that error; any other error of
    the engine is returned with no stream and no handle.  [DecryptString]:
    when neither the armor, nor the reading of the message, nor the body
    ends on an error other than [ErrSignatureExpired], the call returns
    all the bytes of the body as a string, the same handle, and no error;
    any other error, from the armor, the message or the body, is returned.
    The handle is there exactly when the message is signed, and its
    outcome is what the engine recorded in the details, whatever that is:
    the code does not set it, and what it says does not change what the
    two calls return. *)
Theorem signature_expired_tolerated (kr : KeyRing) (w : world) :
  (forall r details,
     openpgp_ReadMessage eng w r (entities kr)
       = (Some details, Some ErrSignatureExpired) ->
     Decrypt eng kr r w
       = (Ret (Some (UnverifiedBody details), handle_of details,
               Some ErrSignatureExpired), w)) /\
  (forall r details e,
     openpgp_ReadMessage eng w r (entities kr) = (details, Some e) ->
     e <> ErrSignatureExpired ->
     Decrypt eng kr r w = (Ret (None, None, Some e), w)) /\
  (forall encrypted block details err1,
     armor_Decode eng (strings_NewReader encrypted) = (Some block, None) ->
     Type_ block = PGPMessageHeader ->
     openpgp_ReadMessage eng w (Body block) (entities kr) = (Some details, err1) ->
     err1 = None \/ err1 = Some ErrSignatureExpired ->
     r_err (UnverifiedBody details) = None \/
     r_err (UnverifiedBody details) = Some ErrSignatureExpired ->
     DecryptString eng kr encrypted w
       = (Ret ({| String_ := string_of_list_byte (r_data (UnverifiedBody details));
                  Signed := handle_of details |}, None), w)) /\
  (forall encrypted e,
     e <> ErrSignatureExpired ->
     (forall block,
        armor_Decode eng (strings_NewReader encrypted) = (block, Some e) ->
        exists ss, DecryptString eng kr encrypted w = (Ret (ss, Some e), w)) /\
     (forall block details,
        armor_Decode eng (strings_NewReader encrypted) = (Some block, None) ->
        Type_ block = PGPMessageHeader ->
        openpgp_ReadMessage eng w (Body block) (entities kr) = (details, Some e) ->
        exists ss, DecryptString eng kr encrypted w = (Ret (ss, Some e), w)) /\
     (forall block details err1,
        armor_Decode eng (strings_NewReader encrypted) = (Some block, None) ->
        Type_ block = PGPMessageHeader ->
        openpgp_ReadMessage eng w (Body block) (entities kr) = (Some details, err1) ->
        hard err1 = false ->
        r_err (UnverifiedBody details) = Some e ->
        exists ss, DecryptString eng kr encrypted w = (Ret (ss, Some e), w))) /\
  (forall details,
     match handle_of details with
     | Some s =>
         IsSigned details = true /\ md s = details /\
         Signature_Err s = SignatureError details
     | None => IsSigned details = false
     end).
Proof.
  split; [| split; [| split; [| split]]].
  - intros r details Hread.
    rewrite Decrypt_run, Hread. reflexivity.
  - intros r details e Hread He.
    rewrite Decrypt_run, Hread.
    apply hard_Some in He. rewrite He. reflexivity.
  - intros encrypted block details err1 Harmor Htype Hread H1 Hbody.
    assert (Hsoft : forall err,
              err = None \/ err = Some ErrSignatureExpired -> hard err = false).
    { intros err [-> | ->]; reflexivity. }
    rewrite DecryptString_run, Harmor. cbn [hard].
    rewrite Htype, String.eqb_refl. cbn [negb].
    rewrite Hread, (Hsoft _ H1), (Hsoft _ Hbody). reflexivity.
  - intros encrypted e He. apply hard_Some in He.
    split; [| split].
    + intros block Harmor. rewrite DecryptString_run, Harmor, He. eauto.
    + intros block details Harmor Htype Hread.
      rewrite DecryptString_run, Harmor. cbn [hard].
      rewrite Htype, String.eqb_refl. cbn [negb].
      rewrite Hread, He. eauto.
    + intros block details err1 Harmor Htype Hread H1 Hbody.
      rewrite DecryptString_run, Harmor. cbn [hard].
      rewrite Htype, String.eqb_refl. cbn [negb].
      rewrite Hread, H1, Hbody, He. eauto.
  - intros details. unfold handle_of, Signature_Err.
    destruct (IsSigned details); [| reflexivity].
    split; [reflexivity |]. split; reflexivity.
Qed.

(** C10.  Whenever [DecryptString] returns an error, the error is not
    [ErrSignatureExpired], the string of the result is the input string
    itself and its signature is nil, and the world is as before.  This is
    the result for an error other than [ErrSignatureExpired] from the
    armor, from the message and from the body alike. *)
Theorem DecryptString_failure_result (kr : KeyRing) (encrypted : string) (w : world) :
  (forall ss e w',
     DecryptString eng kr encrypted w = (Ret (ss, Some e), w') ->
     ss = {| String_ := encrypted; Signed := None |} /\
     e <> ErrSignatureExpired /\ w' = w) /\
  (forall e, e <> ErrSignatureExpired ->
     (forall block,
        armor_Decode eng (strings_NewReader encrypted) = (block, Some e) ->
        DecryptString eng kr encrypted w
          = (Ret ({| String_ := encrypted; Signed := None |}, Some e), w)) /\
     (forall block details,
        armor_Decode eng (strings_NewReader encrypted) = (Some block, None) ->
        Type_ block = PGPMessageHeader ->
        openpgp_ReadMessage eng w (Body block) (entities kr) = (details, Some e) ->
        DecryptString eng kr encrypted w
          = (Ret ({| String_ := encrypted; Signed := None |}, Some e), w)) /\
     (forall block details err1,
        armor_Decode eng (strings_NewReader encrypted) = (Some block, None) ->
        Type_ block = PGPMessageHeader ->
        openpgp_ReadMessage eng w (Body block) (entities kr) = (Some details, err1) ->
        hard err1 = false ->
        r_err (UnverifiedBody details) = Some e ->
        DecryptString eng kr encrypted w
          = (Ret ({| String_ := encrypted; Signed := None |}, Some e), w))).
Proof.
  split.
  - intros ss e w'. rewrite DecryptString_run.
    assert (Hret : forall err,
              hard err = true ->
              (Ret (untouched encrypted, err), w) = (Ret (ss, Some e), w') ->
              ss = {| String_ := encrypted; Signed := None |} /\
              e <> ErrSignatureExpired /\ w' = w).
    { intros err Hh [= <- -> <-]. split; [reflexivity |].
      split; [now apply hard_Some | reflexivity]. }
    destruct (armor_Decode eng (strings_NewReader encrypted)) as [block err0].
    destruct (hard err0) eqn:E0; [now apply Hret |].
    destruct block as [block |]; [| discriminate].
    destruct (negb (String.eqb (Type_ block) PGPMessageHeader));
      [now apply Hret |].
    destruct (openpgp_ReadMessage eng w (Body block) (entities kr))
      as [details err1].
    destruct (hard err1) eqn:E1; [now apply Hret |].
    destruct details as [details |]; [| discriminate].
    cbn zeta.
    destruct (hard (r_err (UnverifiedBody details))) eqn:E2;
      [now apply Hret | discriminate].
  - intros e He. apply hard_Some in He. split; [| split].
    + intros block Harmor. rewrite DecryptString_run, Harmor, He. reflexivity.
    + intros block details Harmor Htype Hread.
      rewrite DecryptString_run, Harmor. cbn [hard].
      rewrite Htype, String.eqb_refl. cbn [negb].
      rewrite Hread, He. reflexivity.
    + intros block details err1 Harmor Htype Hread H1 Hbody.
      rewrite DecryptString_run, Harmor. cbn [hard].
      rewrite Htype, String.eqb_refl. cbn [negb].
      rewrite Hread, H1, Hbody, He. reflexivity.
Qed.

(** *** Construction *)

Lemma readFrom_run (kr : KeyRing) (r : Reader) (armored : bool) (w : world) :
  readFrom eng kr r armored w =
  let '(parsed, err) :=
    if armored then openpgp_ReadArmoredKeyRing eng r
    else openpgp_ReadKeyRing eng r in
  match err with
  | Some _ => (Ret (kr, err), w)
  | None =>
      match parsed with
      | [] => (Ret (kr, Some NoKeyMaterial), w)
      | _ :: _ =>
          (Ret ({| entities :=
                     entities kr ++ map (rebuild_entity eng (heap w) (clock w)) parsed;
                   FirstKeyID := FirstKeyID kr |}, None), w)
      end
  end.
Proof.
  unfold readFrom.
  destruct (if armored then openpgp_ReadArmoredKeyRing eng r
            else openpgp_ReadKeyRing eng r) as [parsed err].
  unfold bind, get_heap, time_Now, ret.
  destruct err; [reflexivity |].
  destruct parsed; reflexivity.
Qed.

(** A call of [readFrom] that returns no error has added an entity. *)
Lemma readFrom_success (kr kr' : KeyRing) (r : Reader) (armored : bool)
    (w w' : world) :
  readFrom eng kr r armored w = (Ret (kr', None), w') -> entities kr' <> [].
Proof.
  rewrite readFrom_run.
  destruct (if armored then openpgp_ReadArmoredKeyRing eng r
            else openpgp_ReadKeyRing eng r) as [parsed err].
  destruct err; [discriminate |].
  destruct parsed as [| e l]; [discriminate |].
  intros [= <- _]. cbn. intros H. apply app_eq_nil in H. destruct H as [_ H].
  discriminate.
Qed.

(** C4, as the code has it.  The constructors that go through [readFrom]
    ([ReadKeyRing], [ReadArmoredKeyRing], [BuildKeyRing]) return
    [NoKeyMaterial], and a ring with no entity next to it, when the engine
    parses no entity and reports no error; when they return no error the
    ring has an entity.  [UnmarshalJSON] on an empty array of records
    returns no error and leaves the ring with no entity. *)
Theorem construction_of_empty_rings (w : world) :
  (forall r,
     openpgp_ReadKeyRing eng r = ([], None) ->
     ReadKeyRing eng r w = (Ret (new_KeyRing, Some NoKeyMaterial), w)) /\
  (forall r,
     openpgp_ReadArmoredKeyRing eng r = ([], None) ->
     ReadArmoredKeyRing eng r w = (Ret (new_KeyRing, Some NoKeyMaterial), w)) /\
  (forall binKeys,
     openpgp_ReadKeyRing eng (bytes_NewReader binKeys) = ([], None) ->
     BuildKeyRing eng binKeys w = (Ret (new_KeyRing, Some NoKeyMaterial), w)) /\
  (forall r binKeys kr' w',
     ReadKeyRing eng r w = (Ret (kr', None), w') \/
     ReadArmoredKeyRing eng r w = (Ret (kr', None), w') \/
     BuildKeyRing eng binKeys w = (Ret (kr', None), w') ->
     entities kr' <> []) /\
  (forall kr b,
     json_Unmarshal eng b = ([], None) ->
     UnmarshalJSON eng kr b w
       = (Ret ({| entities := []; FirstKeyID := FirstKeyID kr |}, None), w)).
Proof.
  split; [| split; [| split; [| split]]].
  - intros r H. unfold ReadKeyRing. rewrite readFrom_run, H. reflexivity.
  - intros r H. unfold ReadArmoredKeyRing. rewrite readFrom_run, H. reflexivity.
  - intros b H. unfold BuildKeyRing. rewrite readFrom_run, H. reflexivity.
  - intros r b kr' w' [H | [H | H]]; eapply readFrom_success; exact H.
  - intros kr b H. unfold UnmarshalJSON. rewrite H. reflexivity.
Qed.

End Properties.

(** ** The theorems at work on the rings of [Demo] *)

(** Runs of the operations. *)

Example Close_inner_failure :
  let run := Close Demo.engine (armorEncryptWriter (engine_stream 1) (engine_stream 7))
                   Demo.start in
  fst run = Ret (Some (EngineError 5)) /\ trace (snd run) = [EvClose 7].
Proof. split; reflexivity. Qed.

Example Close_both :
  let run := Close Demo.engine (armorEncryptWriter (engine_stream 1) (engine_stream 2))
                   Demo.start in
  fst run = Ret None /\ trace (snd run) = [EvClose 2; EvClose 1].
Proof. split; reflexivity. Qed.

Example Encrypt_to_first_of_two :
  let run := Encrypt Demo.engine Demo.public_ring 0 None "" false Demo.start in
  fst run = Ret (Some (engine_stream 1), None) /\
  trace (snd run) =
    [EvEncrypt false 0
       [Demo.entity None [Demo.subkey None (Demo.sig true true true 0%Z None)]]
       None {| IsBinary := true; FileName := "" |}
       {| DefaultCipher := CipherAES256; Time := PmCrypto_GetTime |}].
Proof. split; reflexivity. Qed.

Example Unlock_one_of_two :
  let run := Unlock Demo.engine Demo.locked_ring (list_byte_of_string "a")
                    Demo.start in
  fst run = Ret None /\
  trace (snd run) =
    [EvKeyDecrypt 0 (list_byte_of_string "a") None;
     EvKeyDecrypt 1 (list_byte_of_string "a") (Some (EngineError 1))] /\
  Encrypted (heap (snd run) 0) = false /\
  Encrypted (heap (snd run) 1) = true.
Proof. repeat split; reflexivity. Qed.

Example Unlock_wrong_passphrase :
  let run := Unlock Demo.engine Demo.locked_ring (list_byte_of_string "z")
                    Demo.start in
  fst run = Ret (Some (EngineError 1)) /\
  decrypt_attempts (trace (snd run)) = [0; 1].
Proof. split; reflexivity. Qed.

Example Unlock_public_ring :
  Unlock Demo.engine Demo.public_ring (list_byte_of_string "a") Demo.start
  = (Ret (Some NoPrivateKeyAvailable), Demo.start).
Proof. reflexivity. Qed.

Example FilterExpiredKeys_mixed :
  FilterExpiredKeys Demo.engine [Demo.expired_ring; Demo.live_ring] Demo.start
  = (Ret ([Demo.live_ring], None), Demo.start).
Proof. reflexivity. Qed.

Example FilterExpiredKeys_all_expired :
  FilterExpiredKeys Demo.engine [Demo.expired_ring] Demo.start
  = (Ret ([], Some AllKeysExpired), Demo.start).
Proof. reflexivity. Qed.

Example FilterExpiredKeys_nothing_to_check :
  FilterExpiredKeys Demo.engine [Demo.ring [Demo.entity None []]] Demo.start
  = (Ret ([], None), Demo.start).
Proof. reflexivity. Qed.

Example DecryptString_plain :
  DecryptString Demo.engine (Demo.ring []) "hello" Demo.start
  = (Ret ({| String_ := "hello"; Signed := None |}, None), Demo.start).
Proof. reflexivity. Qed.

Example GetSigningEntity_decrypts_on_the_way :
  let run := GetSigningEntity Demo.engine Demo.locked_ring "a" Demo.start in
  fst run = Ret (nth_error (entities Demo.locked_ring) 0) /\
  trace (snd run) = [EvKeyDecrypt 0 (list_byte_of_string "a") None].
Proof. split; reflexivity. Qed.

Example BuildKeyRingArmored_empty_input :
  BuildKeyRingArmored Demo.engine "" Demo.start
  = (Ret ({| entities := []; FirstKeyID := "" |}, None), Demo.start).
Proof. reflexivity. Qed.

(** C1 as stated fails where the engine records the verdict in the
    details.  A wrong signature that is only recorded there comes with the
    whole content and no error, and the handle says so.  And a message
    read with [ErrSignatureExpired] has the outcome the engine recorded,
    here that of a wrong signature, not that of an expired one. *)
Lemma recorded_verdict_is_not_an_error :
  let wrong := {| md := DemoVerdicts.bad_details (strings_NewReader "Bhello") |} in
  let late := {| md := DemoVerdicts.bad_details (strings_NewReader "Yhello") |} in
  DecryptString DemoVerdicts.engine (Demo.ring []) "Bhello" Demo.start
    = (Ret ({| String_ := "Bhello"; Signed := Some wrong |}, None), Demo.start) /\
  Signature_Err wrong = Some (EngineError 10) /\
  Decrypt DemoVerdicts.engine (Demo.ring []) (strings_NewReader "Yhello") Demo.start
    = (Ret (Some (strings_NewReader "Yhello"), Some late, Some ErrSignatureExpired),
       Demo.start) /\
  Signature_Err late = Some (EngineError 10).
Proof. cbn zeta. repeat split; reflexivity. Qed.


(** On a wrong signature a signer ring of two unlocked entities gets two
    checks, the second on the readers the first one drained. *)
Example VerifyString_goes_on_after_a_wrong_signature :
  let run := VerifyString Demo.engine Demo.public_ring "text" "bad"
                          (Some DemoVerdicts.two_unlocked) Demo.start in
  fst run = Ret (Some (EngineError 4)) /\
  trace (snd run) =
    [EvCheckDetached (entities Demo.public_ring)
                     (strings_NewReader "text") (strings_NewReader "bad");
     EvCheckDetached (entities Demo.public_ring)
                     (bytes_NewReader []) (bytes_NewReader [])].
Proof. split; reflexivity. Qed.

(** The rebuilding in [readFrom] on an entity whose keys are ECDSA keys:
    the primary key is replaced, the key of the subkey is not. *)
Example rebuild_entity_runs :
  let e' := rebuild_entity Demo.engine DemoVerdicts.ecdsa_keys 0%Z
                           DemoVerdicts.ecdsa_entity in
  KeyId (e_PrimaryKey e') = 0%N /\
  e_Subkeys e' = [DemoVerdicts.ecdsa_subkey].
Proof. split; reflexivity. Qed.

(** [FilterExpiredKeys] on its own result, at the same time and later. *)
Example FilterExpiredKeys_later :
  FilterExpiredKeys Demo.engine [Demo.expired_ring] DemoVerdicts.early
    = (Ret ([Demo.expired_ring], None), DemoVerdicts.early) /\
  FilterExpiredKeys Demo.engine [Demo.expired_ring] Demo.start
    = (Ret ([], Some AllKeysExpired), Demo.start).
Proof. split; reflexivity. Qed.

(** C4 as stated fails on the JSON path: the empty array makes a ring with
    no entity, and no error. *)
Lemma UnmarshalJSON_empty_array_is_no_error :
  exists kr',
    UnmarshalJSON Demo.engine new_KeyRing (list_byte_of_string "[]") Demo.start
      = (Ret (kr', None), Demo.start) /\
    entities kr' = [] /\
    json_Unmarshal Demo.engine (list_byte_of_string "[]") = ([], None).
Proof.
  exists {| entities := []; FirstKeyID := "" |}.
  split; [reflexivity |]. split; reflexivity.
Qed.

(** C7 as stated fails on a key that is already decrypted: key 2 is the
    private key of the primary key of the ring, and no attempt is made. *)
Lemma Unlock_skips_decrypted_key :
  In 2 (Unlock_keys Demo.unlocked_ring) /\
  Unlock Demo.engine Demo.unlocked_ring (list_byte_of_string "a") Demo.start
    = (Ret None, Demo.start) /\
  decrypt_attempts
    (trace (snd (Unlock Demo.engine Demo.unlocked_ring
                        (list_byte_of_string "a") Demo.start))) = [].
Proof.
  split; [now left |]. split; reflexivity.
Qed.

(** C5 at work: signing with a ring whose keys are all locked. *)
Lemma signing_requires_unlocked_ring_witness :
  (forall e, In e (entities Demo.locked_ring) ->
             ~ unlocked_in (heap Demo.start) e) /\
  Encrypt Demo.engine Demo.public_ring 0 (Some Demo.locked_ring) "" false Demo.start
    = (Ret (None, Some errKeyringNotUnlocked), Demo.start) /\
  DetachedSign Demo.engine Demo.locked_ring 0 (strings_NewReader "text")
               false true Demo.start
    = (Ret (Some errKeyringNotUnlocked), Demo.start).
Proof.
  assert (H : forall e, In e (entities Demo.locked_ring) ->
                        ~ unlocked_in (heap Demo.start) e).
  { intros e [<- | []] (p & Hp & Hen). cbn in Hp. injection Hp as <-.
    cbn in Hen. discriminate Hen. }
  split; [exact H |].
  exact (signing_requires_unlocked_ring
           Demo.engine Demo.public_ring Demo.locked_ring 0 ""
           (strings_NewReader "text") false true Demo.start H).
Defined.


(** C1 at work: a message with an expired signature. *)
Lemma signature_expired_tolerated_witness :
  let details := Demo.expired_details (strings_NewReader "Xhello") in
  openpgp_ReadMessage Demo.engine Demo.start (strings_NewReader "Xhello") []
    = (Some details, Some ErrSignatureExpired) /\
  Decrypt Demo.engine (Demo.ring []) (strings_NewReader "Xhello") Demo.start
    = (Ret (Some (UnverifiedBody details), Some {| md := details |},
            Some ErrSignatureExpired), Demo.start) /\
  DecryptString Demo.engine (Demo.ring []) "Xhello" Demo.start
    = (Ret ({| String_ := "Xhello"; Signed := Some {| md := details |} |}, None),
       Demo.start).
Proof.
  cbn zeta.
  pose proof (signature_expired_tolerated Demo.engine (Demo.ring []) Demo.start)
    as (HDecrypt & _ & HString & _).
  split; [reflexivity |]. split.
  - exact (HDecrypt (strings_NewReader "Xhello")
                    (Demo.expired_details (strings_NewReader "Xhello"))
                    eq_refl).
  - exact (HString "Xhello"
                   {| Type_ := PGPMessageHeader;
                      Body := strings_NewReader "Xhello" |}
                   (Demo.expired_details (strings_NewReader "Xhello"))
                   (Some ErrSignatureExpired)
                   eq_refl eq_refl eq_refl
                   (or_intror eq_refl) (or_intror eq_refl)).
Defined.

(** C10 at work: an error from the armor, from the message, from the
    body. *)
Lemma DecryptString_failure_result_witness :
  DecryptString Demo.engine (Demo.ring []) "" Demo.start
    = (Ret ({| String_ := ""; Signed := None |}, Some (EngineError 3)), Demo.start) /\
  DecryptString Demo.engine (Demo.ring []) "!hello" Demo.start
    = (Ret ({| String_ := "!hello"; Signed := None |}, Some (EngineError 2)),
       Demo.start) /\
  DecryptString Demo.engine (Demo.ring []) "?hello" Demo.start
    = (Ret ({| String_ := "?hello"; Signed := None |}, Some (EngineError 7)),
       Demo.start).
Proof.
  split; [| split].
  - apply (proj1 (proj2 (DecryptString_failure_result
                           Demo.engine (Demo.ring []) "" Demo.start)
                        (EngineError 3) ltac:(discriminate)) None).
    reflexivity.
  - apply (proj1 (proj2 (proj2 (DecryptString_failure_result
                                  Demo.engine (Demo.ring []) "!hello" Demo.start)
                               (EngineError 2) ltac:(discriminate)))
                 {| Type_ := PGPMessageHeader;
                    Body := strings_NewReader "!hello" |} None);
      reflexivity.
  - apply (proj2 (proj2 (proj2 (DecryptString_failure_result
                                  Demo.engine (Demo.ring []) "?hello" Demo.start)
                               (EngineError 7) ltac:(discriminate)))
                 {| Type_ := PGPMessageHeader;
                    Body := strings_NewReader "?hello" |}
                 (Demo.broken_details (strings_NewReader "?hello")) None);
      reflexivity.
Defined.

(** C4 at work: an empty input on the three paths through [readFrom], and
    the empty array on the JSON path. *)
Lemma construction_of_empty_rings_witness :
  openpgp_ReadKeyRing Demo.engine (bytes_NewReader []) = ([], None) /\
  ReadKeyRing Demo.engine (bytes_NewReader []) Demo.start
    = (Ret (new_KeyRing, Some NoKeyMaterial), Demo.start) /\
  ReadArmoredKeyRing Demo.engine (strings_NewReader "") Demo.start
    = (Ret (new_KeyRing, Some NoKeyMaterial), Demo.start) /\
  BuildKeyRing Demo.engine [] Demo.start
    = (Ret (new_KeyRing, Some NoKeyMaterial), Demo.start) /\
  UnmarshalJSON Demo.engine new_KeyRing (list_byte_of_string "[]") Demo.start
    = (Ret ({| entities := []; FirstKeyID := "" |}, None), Demo.start).
Proof.
  pose proof (construction_of_empty_rings Demo.engine Demo.start)
    as (HRead & HArmored & HBuild & _ & HJSON).
  split; [reflexivity |].
  split; [exact (HRead (bytes_NewReader []) eq_refl) |].
  split; [exact (HArmored (strings_NewReader "") eq_refl) |].
  split; [exact (HBuild [] eq_refl) |].
  exact (HJSON new_KeyRing (list_byte_of_string "[]") eq_refl).
Defined.

(** C7 at work: a ring of public keys has nothing to unlock. *)
Lemma Unlock_attempts_witness :
  (forall p, ~ unlock_component Demo.public_ring p) /\
  exists attempts h' r,
    Unlock Demo.engine Demo.public_ring (list_byte_of_string "a") Demo.start
      = (Ret r, {| heap := h'; clock := clock Demo.start;
                   trace := trace Demo.start
                            ++ map (decrypt_event (list_byte_of_string "a")) attempts |}) /\
    r = Some NoPrivateKeyAvailable /\ attempts = [] /\ h' = heap Demo.start.
Proof.
  assert (H : forall p, ~ unlock_component Demo.public_ring p).
  { intros p (e & Hin & Hcase).
    destruct Hin as [<- | [<- | []]]; cbn in Hcase.
    - destruct Hcase as [Hp | (sk & [<- | []] & Hp & _)]; discriminate Hp.
    - destruct Hcase as [Hp | (sk & [] & _)]. discriminate Hp. }
  split; [exact H |].
  destruct (Unlock_attempts Demo.engine Demo.public_ring
                            (list_byte_of_string "a") Demo.start)
    as (attempts & h' & r & Hrun & _ & _ & Hnone).
  exists attempts, h', r. split; [exact Hrun | exact (Hnone H)].
Defined.

(** ** Further properties *)

Section MoreProperties.

Variable eng : PgpEngine.

(** *** Unlock and the heap *)

Lemma Unlock_loop_cons (passphrase : list byte) (key : ptr) (rest : list ptr)
    (err : option error) (n : nat) (w : world) :
  Unlock_loop eng (key :: rest) passphrase err n w =
  if Encrypted (heap w key) then
    match key_Decrypt eng (heap w key) passphrase with
    | inl e =>
        Unlock_loop eng rest passphrase (Some e) n
                    (emit (EvKeyDecrypt key passphrase (Some e)) w)
    | inr m =>
        Unlock_loop eng rest passphrase None (S n)
          (emit (EvKeyDecrypt key passphrase None)
                (store key {| Encrypted := false; pk_PrivateKey := Some m;
                              pk_encryptedData := pk_encryptedData (heap w key) |} w))
    end
  else Unlock_loop eng rest passphrase err n w.
Proof.
  cbn [Unlock_loop]. unfold bind at 1. unfold load at 1.
  destruct (Encrypted (heap w key)); cbn [negb]; [| reflexivity].
  unfold bind at 1. rewrite PrivateKey_Decrypt_run.
  destruct (key_Decrypt eng (heap w key) passphrase); reflexivity.
Qed.

Lemma opens_rejects (k : packet_PrivateKey) (passphrase : list byte) :
  opens eng k passphrase -> rejects eng k passphrase -> False.
Proof. intros [m Hm] [e He]. congruence. Qed.

(** What the loop of [Unlock] does to the keys. *)
Lemma Unlock_loop_heap (passphrase : list byte) (keys : list ptr) :
  forall (err : option error) (n : nat) (w : world),
    let w' := snd (Unlock_loop eng keys passphrase err n w) in
    clock w' = clock w /\
    (forall p, Encrypted (heap w' p) = true -> heap w' p = heap w p) /\
    (forall p, Encrypted (heap w p) = false -> heap w' p = heap w p) /\
    (forall p, ~ In p keys -> heap w' p = heap w p) /\
    (forall p, In p keys -> Encrypted (heap w' p) = true ->
               rejects eng (heap w p) passphrase) /\
    (forall p, Encrypted (heap w p) = true -> Encrypted (heap w' p) = false ->
               In p keys /\ opens eng (heap w p) passphrase).
Proof.
  induction keys as [| key rest IH]; intros err n w; cbn zeta.
  - cbn. split; [reflexivity |]. split; [auto |]. split; [auto |].
    split; [auto |]. split.
    + intros p [].
    + intros p H1 H2. congruence.
  - rewrite Unlock_loop_cons.
    destruct (Encrypted (heap w key)) eqn:Ekey.
    + destruct (key_Decrypt eng (heap w key) passphrase) as [e | m] eqn:Edec.
      * (* the attempt fails: the heap is as before *)
        specialize (IH (Some e) n (emit (EvKeyDecrypt key passphrase (Some e)) w)).
        cbn zeta in IH. cbn [emit heap clock] in IH.
        destruct IH as (Hc & Hkeep & Hdec & Hout & Hrej & Hopen).
        split; [exact Hc |]. split; [exact Hkeep |]. split; [exact Hdec |].
        split; [| split].
        -- intros p Hp. apply Hout. intros Hin. apply Hp. now right.
        -- intros p [<- | Hin] Hen; [now exists e | now apply Hrej].
        -- intros p H1 H2. destruct (Hopen p H1 H2) as [Hin Ho].
           split; [now right | exact Ho].
      * (* the attempt succeeds: the key is stored decrypted *)
        set (k' := {| Encrypted := false; pk_PrivateKey := Some m;
                      pk_encryptedData := pk_encryptedData (heap w key) |}).
        specialize (IH None (S n)
                       (emit (EvKeyDecrypt key passphrase None) (store key k' w))).
        cbn zeta in IH. cbn [emit store heap clock] in IH.
        destruct IH as (Hc & Hkeep & Hdec & Hout & Hrej & Hopen).
        set (w' := snd (Unlock_loop eng rest passphrase None (S n)
                          (emit (EvKeyDecrypt key passphrase None)
                                (store key k' w)))) in *.
        assert (Hkey : Encrypted (heap w' key) = false).
        { destruct (Encrypted (heap w' key)) eqn:E; [| reflexivity].
          rewrite (Hkeep key E), Nat.eqb_refl in E. discriminate E. }
        assert (Hother : forall p, p <> key ->
                  (if Nat.eqb p key then k' else heap w p) = heap w p).
        { intros p Hne. apply Nat.eqb_neq in Hne. now rewrite Hne. }
        split; [exact Hc |].
        split; [| split; [| split; [| split]]].
        -- intros p Hen. destruct (Nat.eq_dec p key) as [-> | Hne]; [congruence |].
           rewrite (Hkeep p Hen). now apply Hother.
        -- intros p Hp. destruct (Nat.eq_dec p key) as [-> | Hne]; [congruence |].
           rewrite Hdec; rewrite Hother; auto.
        -- intros p Hp.
           assert (Hne : p <> key) by (intros ->; apply Hp; now left).
           rewrite Hout; [now apply Hother |].
           intros Hin. apply Hp. now right.
        -- intros p Hin Hen.
           destruct (Nat.eq_dec p key) as [-> | Hne]; [congruence |].
           destruct Hin as [-> | Hin]; [congruence |].
           specialize (Hrej p Hin Hen). now rewrite Hother in Hrej.
        -- intros p H1 H2. destruct (Nat.eq_dec p key) as [-> | Hne].
           ++ split; [now left | now exists m].
           ++ destruct (Hopen p) as [Hin Ho]; rewrite ?Hother; auto.
              split; [now right |]. now rewrite Hother in Ho.
    + (* the key is skipped *)
      specialize (IH err n w). cbn zeta in IH.
      destruct IH as (Hc & Hkeep & Hdec & Hout & Hrej & Hopen).
      split; [exact Hc |]. split; [exact Hkeep |]. split; [exact Hdec |].
      split; [| split].
      * intros p Hp. apply Hout. intros Hin. apply Hp. now right.
      * intros p [<- | Hin] Hen; [| now apply Hrej].
        rewrite (Hkeep _ Hen) in Hen. congruence.
      * intros p H1 H2. destruct (Hopen p H1 H2) as [Hin Ho].
        split; [now right | exact Ho].
Qed.

Lemma Unlock_world (kr : KeyRing) (passphrase : list byte) (w : world) :
  snd (Unlock eng kr passphrase w)
  = snd (Unlock_loop eng (Unlock_keys kr) passphrase None 0 w).
Proof.
  unfold Unlock. destruct (Unlock_keys kr) as [| key rest]; [reflexivity |].
  cbn [List.length Nat.eqb]. unfold bind.
  destruct (Unlock_loop eng (key :: rest) passphrase None 0 w) as [[[err n] |] w'];
    [| reflexivity].
  cbn. destruct (Nat.eqb n 0); reflexivity.
Qed.

(** A loop over keys that are all decrypted does nothing. *)
Lemma Unlock_loop_skip_all (passphrase : list byte) (keys : list ptr)
    (err : option error) (n : nat) (w : world) :
  (forall p, In p keys -> Encrypted (heap w p) = false) ->
  Unlock_loop eng keys passphrase err n w = (Ret (err, n), w).
Proof.
  induction keys as [| key rest IH]; intros Hall; [reflexivity |].
  rewrite Unlock_loop_cons, (Hall key) by now left.
  apply IH. intros p Hin. apply Hall. now right.
Qed.

(** The facts of [Unlock_loop_heap] for a call of [Unlock], next to the
    attempts of [Unlock_run]. *)
Lemma Unlock_heap (kr : KeyRing) (passphrase : list byte) (w : world) :
  let w' := snd (Unlock eng kr passphrase w) in
  clock w' = clock w /\
  (forall p, Encrypted (heap w' p) = true -> heap w' p = heap w p) /\
  (forall p, Encrypted (heap w p) = false -> heap w' p = heap w p) /\
  (forall p, ~ unlock_component kr p -> heap w' p = heap w p) /\
  (forall p, unlock_component kr p -> Encrypted (heap w' p) = true ->
             rejects eng (heap w p) passphrase) /\
  (forall p, Encrypted (heap w p) = true -> Encrypted (heap w' p) = false ->
             unlock_component kr p /\ opens eng (heap w p) passphrase).
Proof.
  cbn zeta. rewrite Unlock_world.
  destruct (Unlock_loop_heap passphrase (Unlock_keys kr) None 0 w)
    as (Hc & Hkeep & Hdec & Hout & Hrej & Hopen).
  split; [exact Hc |]. split; [exact Hkeep |]. split; [exact Hdec |].
  split; [| split].
  - intros p Hp. apply Hout. now rewrite Unlock_keys_spec.
  - intros p Hp. apply Hrej. now apply Unlock_keys_spec.
  - intros p H1 H2. destruct (Hopen p H1 H2) as [Hin Ho].
    split; [now apply Unlock_keys_spec | exact Ho].
Qed.

Lemma all_failed_last (attempts : list attempt) :
  newly_decrypted attempts = [] ->
  last (map snd attempts) None = None ->
  attempts = [].
Proof.
  destruct attempts as [| a l] using rev_ind; [reflexivity |].
  rewrite map_app. cbn [map]. rewrite last_last. intros Hnew Hlast.
  unfold newly_decrypted in Hnew. rewrite filter_app in Hnew.
  cbn [filter] in Hnew. unfold succeeded in Hnew at 2. rewrite Hlast in Hnew.
  rewrite map_app in Hnew. apply app_eq_nil in Hnew. destruct Hnew as [_ Hnew].
  discriminate Hnew.
Qed.

(** When [Unlock] returns no error, in terms of the keys before the
    call. *)
Lemma Unlock_None_iff (kr : KeyRing) (passphrase : list byte) (w : world) :
  fst (Unlock eng kr passphrase w) = Ret None <->
  Unlock_keys kr <> [] /\
  ((exists p, unlock_component kr p /\ Encrypted (heap w p) = true /\
              opens eng (heap w p) passphrase)
   \/ (forall p, unlock_component kr p -> Encrypted (heap w p) = false)).
Proof.
  pose proof (Unlock_heap kr passphrase w) as Hheap. cbn zeta in Hheap.
  destruct (Unlock_run eng kr passphrase w)
    as (attempts & h' & Hrun & Hatt & Hnew & Hnd & Hnil).
  rewrite Hrun in Hheap |- *. cbn [fst snd heap clock] in Hheap |- *.
  destruct Hheap as (_ & Hkeep & Hdec & Hout & Hrej & Hopen).
  assert (Hnone : (forall p, unlock_component kr p -> Encrypted (heap w p) = false)
                  -> attempts = []).
  { intros Hall. destruct attempts as [| a l]; [reflexivity |].
    destruct (proj1 (Hatt (fst a)) (or_introl eq_refl)) as [Hin Hen].
    apply Unlock_keys_spec in Hin. rewrite (Hall _ Hin) in Hen. discriminate. }
  assert (Hsome : forall p, unlock_component kr p -> Encrypted (heap w p) = true ->
                            opens eng (heap w p) passphrase ->
                            In p (newly_decrypted attempts)).
  { intros p Hc Hen Ho. apply Hnew. split; [exact Hen |].
    destruct (Encrypted (h' p)) eqn:E; [| reflexivity].
    exfalso. eapply opens_rejects; [exact Ho | now apply Hrej]. }
  destruct (Unlock_keys kr) as [| key rest] eqn:Ekeys.
  - split; [discriminate |]. intros [H _]. now elim H.
  - destruct (newly_decrypted attempts) as [| q l] eqn:Enew; cbn [List.length Nat.eqb].
    + split.
      * intros [= Hlast]. split; [discriminate |]. right.
        apply (all_failed_last _ Enew) in Hlast. subst attempts.
        intros p Hc. destruct (Encrypted (heap w p)) eqn:E; [| reflexivity].
        assert (Hin : In p (map fst (@nil attempt))).
        { apply Hatt. split; [| exact E].
          rewrite <- Ekeys. now apply Unlock_keys_spec. }
        destruct Hin.
      * intros [_ [(p & Hc & Hen & Ho) | Hall]].
        -- destruct (Hsome p Hc Hen Ho).
        -- now rewrite (Hnone Hall).
    + split; [| reflexivity].
      intros _. split; [discriminate |]. left. exists q.
      destruct (proj1 (Hnew q) (or_introl eq_refl)) as [Hen Hde].
      destruct (Hopen q Hen Hde) as [Hc Ho]. auto.
Qed.

(** X1.  [Unlock] leaves the clock alone and, of the keys, changes only
    keys it considers that were encrypted and that the passphrase opens;
    such a key is decrypted afterwards.  Every other key is as it was: no
    key is locked again, and a key that rejects the passphrase is not
    touched. *)
Theorem Unlock_changes_only_opened_keys
    (kr : KeyRing) (passphrase : list byte) (w : world) :
  let w' := snd (Unlock eng kr passphrase w) in
  clock w' = clock w /\
  forall p,
    heap w' p = heap w p \/
    (unlock_component kr p /\ Encrypted (heap w p) = true /\
     opens eng (heap w p) passphrase /\ Encrypted (heap w' p) = false).
Proof.
  destruct (Unlock_heap kr passphrase w)
    as (Hc & Hkeep & Hdec & Hout & Hrej & Hopen).
  cbn zeta. split; [exact Hc |]. intros p.
  destruct (Encrypted (heap (snd (Unlock eng kr passphrase w)) p)) eqn:E';
    [left; now apply Hkeep |].
  destruct (Encrypted (heap w p)) eqn:E; [| left; now apply Hdec].
  right. destruct (Hopen p E E') as [Hcomp Ho]. auto.
Qed.

(** X2.  After [Unlock], a key it considers is still encrypted exactly
    when it was encrypted before and the engine rejects the passphrase for
    it: the loop goes through all the keys, whatever the earlier attempts
    answered. *)
Theorem Unlock_leaves_encrypted_iff
    (kr : KeyRing) (passphrase : list byte) (w : world) (p : ptr) :
  unlock_component kr p ->
  (Encrypted (heap (snd (Unlock eng kr passphrase w)) p) = true <->
   Encrypted (heap w p) = true /\ rejects eng (heap w p) passphrase).
Proof.
  intros Hcomp.
  destruct (Unlock_heap kr passphrase w)
    as (Hc & Hkeep & Hdec & Hout & Hrej & Hopen).
  split.
  - intros E'. split; [| now apply Hrej].
    rewrite <- (Hkeep p E'). exact E'.
  - intros [E Hr].
    destruct (Encrypted (heap (snd (Unlock eng kr passphrase w)) p)) eqn:E';
      [reflexivity |].
    destruct (Hopen p E E') as [_ Ho].
    exfalso. now apply (opens_rejects Ho).
Qed.

(** X3.  [Unlock] returns no error exactly when the ring has a key to
    consider and either the passphrase opens one of the considered keys
    that are encrypted, or none of them is encrypted. *)
Theorem Unlock_succeeds_iff (kr : KeyRing) (passphrase : list byte) (w : world) :
  fst (Unlock eng kr passphrase w) = Ret None <->
  Unlock_keys kr <> [] /\
  ((exists p, unlock_component kr p /\ Encrypted (heap w p) = true /\
              opens eng (heap w p) passphrase)
   \/ (forall p, unlock_component kr p -> Encrypted (heap w p) = false)).
Proof. apply Unlock_None_iff. Qed.

(** X4.  A second [Unlock] with the same passphrase, right after the
    first, changes no key, and it returns no error only when every
    considered key is decrypted by then: on a ring that the first call
    unlocked in part, the second call fails. *)
Theorem Unlock_again (kr : KeyRing) (passphrase : list byte) (w : world) :
  let w1 := snd (Unlock eng kr passphrase w) in
  (forall p, heap (snd (Unlock eng kr passphrase w1)) p = heap w1 p) /\
  (fst (Unlock eng kr passphrase w1) = Ret None <->
   Unlock_keys kr <> [] /\
   forall p, unlock_component kr p -> Encrypted (heap w1 p) = false).
Proof.
  cbn zeta. set (w1 := snd (Unlock eng kr passphrase w)).
  destruct (Unlock_heap kr passphrase w)
    as (_ & Hkeep & _ & _ & Hrej & _). fold w1 in Hkeep, Hrej.
  assert (Hstuck : forall p, unlock_component kr p ->
                     Encrypted (heap w1 p) = true ->
                     rejects eng (heap w1 p) passphrase).
  { intros p Hcomp E. rewrite (Hkeep p E). now apply Hrej. }
  split.
  - intros p.
    destruct (Unlock_heap kr passphrase w1)
      as (_ & Hkeep2 & Hdec2 & _ & _ & Hopen2).
    destruct (Encrypted (heap (snd (Unlock eng kr passphrase w1)) p)) eqn:E2;
      [now apply Hkeep2 |].
    destruct (Encrypted (heap w1 p)) eqn:E1; [| now apply Hdec2].
    destruct (Hopen2 p E1 E2) as [Hcomp Ho].
    exfalso. apply (opens_rejects Ho). now apply Hstuck.
  - rewrite Unlock_None_iff. split.
    + intros [Hne [(p & Hcomp & E & Ho) | Hall]]; [| now split].
      exfalso. apply (opens_rejects Ho). now apply Hstuck.
    + intros [Hne Hall]. split; [exact Hne |]. now right.
Qed.

(** X5.  On a ring whose considered keys are all decrypted, [Unlock]
    returns no error with any passphrase, makes no call to the engine and
    changes nothing. *)
Theorem Unlock_of_unlocked_ring (kr : KeyRing) (passphrase : list byte) (w : world) :
  Unlock_keys kr <> [] ->
  (forall p, unlock_component kr p -> Encrypted (heap w p) = false) ->
  Unlock eng kr passphrase w = (Ret None, w).
Proof.
  intros Hne Hall. unfold Unlock.
  destruct (Unlock_keys kr) as [| key rest] eqn:Ekeys; [now elim Hne |].
  cbn [List.length Nat.eqb]. unfold bind.
  rewrite Unlock_loop_skip_all; [reflexivity |].
  intros p Hin. apply Hall. apply Unlock_keys_spec. now rewrite Ekeys.
Qed.

(** *** The signing entity, again *)

Lemma first_unlocked_at (before after : list Entity) (e : Entity) (w : world) :
  all_locked (heap w) before ->
  unlocked_in (heap w) e ->
  first_unlocked (before ++ e :: after) w = (Ret (Some e), w).
Proof.
  intros Hbefore Hu. induction before as [| b l IH]; cbn [app first_unlocked].
  - unfold bind. now rewrite is_unlocked_true.
  - unfold bind. rewrite is_unlocked_false by (apply Hbefore; now left).
    apply IH. intros b' Hin. apply Hbefore. now right.
Qed.

Lemma no_key_locked (h : ptr -> packet_PrivateKey) (e : Entity) :
  e_PrivateKey e = None -> ~ unlocked_in h e.
Proof. intros Hnone (p & Hp & _). congruence. Qed.

Lemma encrypted_key_locked (h : ptr -> packet_PrivateKey) (e : Entity) (p : ptr) :
  e_PrivateKey e = Some p -> Encrypted (h p) = true -> ~ unlocked_in h e.
Proof. intros Hp Hen (q & Hq & Hde). congruence. Qed.

(** A run of the loop of [GetSigningEntity]. *)
Lemma GetSigningEntity_loop_run (passphrase : string) (es : list Entity) :
  forall w, exists r w',
    GetSigningEntity_loop eng es passphrase w = (Ret r, w') /\
    clock w' = clock w /\
    (forall p, Encrypted (heap w p) = true ->
               rejects eng (heap w p) (list_byte_of_string passphrase) ->
               heap w' p = heap w p) /\
    match r with
    | Some e =>
        exists before after,
          es = before ++ e :: after /\
          unlocked_in (heap w') e /\ all_locked (heap w') before
    | None =>
        all_locked (heap w') es /\
        (forall p, heap w' p = heap w p) /\
        (forall e p, In e es -> e_PrivateKey e = Some p ->
                     Encrypted (heap w p) = true /\
                     rejects eng (heap w p) (list_byte_of_string passphrase))
    end.
Proof.
  induction es as [| e rest IH]; intros w.
  - exists None, w. split; [reflexivity |]. split; [reflexivity |].
    split; [auto |]. split; [intros e [] |]. split; [auto |]. intros e p [].
  - cbn [GetSigningEntity_loop].
    destruct (e_PrivateKey e) as [p |] eqn:Ep.
    + unfold bind at 1. unfold load at 1.
      destruct (Encrypted (heap w p)) eqn:Een.
      * (* the key is encrypted: an attempt is made *)
        unfold bind at 1. unfold bind at 1. rewrite PrivateKey_Decrypt_run.
        destruct (key_Decrypt eng (heap w p) (list_byte_of_string passphrase))
          as [err | m] eqn:Edec.
        -- (* rejected: on to the next entity *)
           unfold ret at 1. unfold bind at 1. unfold load at 1.
           cbn [emit heap]. rewrite Een. cbn [negb].
           destruct (IH (emit (EvKeyDecrypt p (list_byte_of_string passphrase)
                                            (Some err)) w))
             as (r & w' & Hrun & Hc & Hkeep & Hspec).
           cbn [emit heap clock] in Hc, Hkeep, Hspec.
           exists r, w'. split; [exact Hrun |]. split; [exact Hc |].
           split; [exact Hkeep |].
           assert (Hlocked : ~ unlocked_in (heap w') e).
           { eapply encrypted_key_locked; [exact Ep |].
             rewrite Hkeep; [exact Een | exact Een | now exists err]. }
           destruct r as [e1 |].
           ++ destruct Hspec as (before & after & -> & Hu & Hbefore).
              exists (e :: before), after. split; [reflexivity |].
              split; [exact Hu |].
              intros b [<- | Hin]; [exact Hlocked | now apply Hbefore].
           ++ destruct Hspec as (Hall & Hsame & Hrej).
              split; [| split; [exact Hsame |]].
              ** intros b [<- | Hin]; [exact Hlocked | now apply Hall].
              ** intros b q [<- | Hin] Hq.
                 --- rewrite Ep in Hq. injection Hq as <-.
                     split; [exact Een | now exists err].
                 --- now apply (Hrej b q).
        -- (* opened: this is the entity *)
           unfold ret at 1. unfold bind at 1. unfold load at 1.
           cbn [emit store heap]. rewrite Nat.eqb_refl. cbn [Encrypted negb].
           eexists. eexists. split; [reflexivity |].
           cbn [emit store heap clock]. split; [reflexivity |]. split.
           ++ intros q Hen Hrej. destruct (Nat.eqb_spec q p) as [-> | Hne];
                [| reflexivity].
              exfalso. apply (@opens_rejects (heap w p) (list_byte_of_string passphrase));
                [now exists m | exact Hrej].
           ++ exists [], rest. split; [reflexivity |]. split; [| intros b []].
              exists p. split; [exact Ep |]. now rewrite Nat.eqb_refl.
      * (* the key is decrypted already *)
        unfold ret at 1. unfold bind at 1. unfold bind at 1. unfold load at 1.
        rewrite Een. cbn [negb].
        exists (Some e), w. split; [reflexivity |]. split; [reflexivity |].
        split; [auto |].
        exists [], rest. split; [reflexivity |]. split; [| intros b []].
        exists p. split; [exact Ep | exact Een].
    + (* no private key *)
      destruct (IH w) as (r & w' & Hrun & Hc & Hkeep & Hspec).
      exists r, w'. split; [exact Hrun |]. split; [exact Hc |].
      split; [exact Hkeep |].
      destruct r as [e1 |].
      * destruct Hspec as (before & after & -> & Hu & Hbefore).
        exists (e :: before), after. split; [reflexivity |].
        split; [exact Hu |].
        intros b [<- | Hin]; [now apply no_key_locked | now apply Hbefore].
      * destruct Hspec as (Hall & Hsame & Hrej).
        split; [| split; [exact Hsame |]].
        -- intros b [<- | Hin]; [now apply no_key_locked | now apply Hall].
        -- intros b q [<- | Hin] Hq; [congruence | now apply (Hrej b q)].
Qed.

Lemma first_unlocked_of_spec (es : list Entity) (r : option Entity) (w : world) :
  match r with
  | Some e =>
      exists before after,
        es = before ++ e :: after /\
        unlocked_in (heap w) e /\ all_locked (heap w) before
  | None => all_locked (heap w) es
  end ->
  first_unlocked es w = (Ret r, w).
Proof.
  destruct r as [e |].
  - intros (before & after & -> & Hu & Hbefore). now apply first_unlocked_at.
  - intros Hall. now apply first_unlocked_none.
Qed.

(** X6.  [GetSigningEntity] returns what the scan for a signing entity of
    [Encrypt] and [DetachedSign] finds in the world it leaves: the first
    entity of the ring whose private key is decrypted by then.  It returns
    nil only when every private key of the ring was encrypted and rejected
    the passphrase, and then no key has changed. *)
Theorem GetSigningEntity_is_first_unlocked
    (kr : KeyRing) (passphrase : string) (w : world) :
  exists r w',
    GetSigningEntity eng kr passphrase w = (Ret r, w') /\
    clock w' = clock w /\
    first_unlocked (entities kr) w' = (Ret r, w') /\
    (r = None ->
     (forall p, heap w' p = heap w p) /\
     forall e p, In e (entities kr) -> e_PrivateKey e = Some p ->
                 Encrypted (heap w p) = true /\
                 rejects eng (heap w p) (list_byte_of_string passphrase)).
Proof.
  destruct (GetSigningEntity_loop_run passphrase (entities kr) w)
    as (r & w' & Hrun & Hc & _ & Hspec).
  exists r, w'. split; [exact Hrun |]. split; [exact Hc |]. split.
  - apply first_unlocked_of_spec. destruct r; [exact Hspec | apply Hspec].
  - intros ->. destruct Hspec as (_ & Hsame & Hrej). now split.
Qed.

(** X7.  [GetSigningEntity] followed by [DetachedSign] on the same ring:
    the signature is made with the entity that [GetSigningEntity]
    returned, in one call to the engine; when it returned nil,
    [DetachedSign] fails with [errKeyringNotUnlocked]. *)
Theorem GetSigningEntity_then_DetachedSign
    (kr : KeyRing) (passphrase : string) (out : Writer) (toSign : Reader)
    (canonicalizeText armored : bool) (w : world) :
  exists r w',
    GetSigningEntity eng kr passphrase w = (Ret r, w') /\
    DetachedSign eng kr out toSign canonicalizeText armored w' =
    match r with
    | Some e =>
        let mode := DetachedSign_mode canonicalizeText armored in
        (Ret (openpgp_DetachSign eng w' mode out e toSign the_config),
         emit (EvDetachSign mode out e toSign the_config) w')
    | None => (Ret (Some errKeyringNotUnlocked), w')
    end.
Proof.
  destruct (GetSigningEntity_loop_run passphrase (entities kr) w)
    as (r & w' & Hrun & _ & _ & Hspec).
  exists r, w'. split; [exact Hrun |].
  assert (Hfirst : first_unlocked (entities kr) w' = (Ret r, w')).
  { apply first_unlocked_of_spec. destruct r; [exact Hspec | apply Hspec]. }
  unfold DetachedSign, bind. rewrite Hfirst.
  destruct r as [e |]; [| reflexivity].
  unfold DetachedSign_mode, the_config.
  destruct canonicalizeText; [reflexivity |]. destruct armored; reflexivity.
Qed.

(** X8.  With an unlocked entity in the ring, [DetachedSign] makes one
    call to the engine, with the first unlocked entity as the signer, and
    returns what the engine answers.  The text mode is always armored: when
    [canonicalizeText] is set, [armored] is not looked at. *)
Theorem DetachedSign_call
    (kr : KeyRing) (before after : list Entity) (e : Entity) (out : Writer)
    (toSign : Reader) (canonicalizeText armored : bool) (w : world) :
  entities kr = before ++ e :: after ->
  all_locked (heap w) before ->
  unlocked_in (heap w) e ->
  let mode := DetachedSign_mode canonicalizeText armored in
  DetachedSign eng kr out toSign canonicalizeText armored w
    = (Ret (openpgp_DetachSign eng w mode out e toSign the_config),
       emit (EvDetachSign mode out e toSign the_config) w) /\
  DetachedSign eng kr out toSign true armored w
    = DetachedSign eng kr out toSign true (negb armored) w.
Proof.
  intros Hes Hbefore Hu. cbn zeta.
  unfold DetachedSign, bind. rewrite Hes, first_unlocked_at by assumption.
  unfold DetachedSign_mode, the_config. split; [| reflexivity].
  destruct canonicalizeText; [reflexivity |]. destruct armored; reflexivity.
Qed.

(** X9.  Without a signer, or with a signer ring that has an unlocked
    entity, [Encrypt] makes one call to the engine: to the first entity of
    the ring, or to nobody when the ring has no entity (the empty ring is
    not refused here); signed by the first unlocked entity of the signer
    ring; as text exactly when [canonicalizeText] is set, and marked binary
    otherwise; with AES-256.  It returns what the engine answers. *)
Theorem Encrypt_call
    (kr : KeyRing) (out : Writer) (sign : option KeyRing) (filename : string)
    (canonicalizeText : bool) (signEntity : option Entity) (w : world) :
  (sign = None /\ signEntity = None) \/
  (exists s e before after,
     sign = Some s /\ signEntity = Some e /\
     entities s = before ++ e :: after /\
     all_locked (heap w) before /\ unlocked_in (heap w) e) ->
  let hints := {| IsBinary := negb canonicalizeText; FileName := filename |} in
  let to := firstn 1 (entities kr) in
  Encrypt eng kr out sign filename canonicalizeText w
    = (Ret (openpgp_Encrypt eng w canonicalizeText out to signEntity hints the_config),
       emit (EvEncrypt canonicalizeText out to signEntity hints the_config) w).
Proof.
  intros Hsign. cbn zeta.
  assert (Hto : Encrypt_targets (entities kr) = firstn 1 (entities kr)).
  { destruct (entities kr); reflexivity. }
  unfold Encrypt, EncryptCore, bind, the_config. rewrite Hto.
  destruct Hsign as [[-> ->] | (s & e & before & after & -> & -> & Hes & Hb & Hu)].
  - destruct canonicalizeText; reflexivity.
  - rewrite Hes, first_unlocked_at by assumption.
    destruct canonicalizeText; reflexivity.
Qed.

Lemma GetSigningEntity_loop_cons (passphrase : string) (e : Entity)
    (rest : list Entity) (w : world) :
  GetSigningEntity_loop eng (e :: rest) passphrase w =
  match e_PrivateKey e with
  | None => GetSigningEntity_loop eng rest passphrase w
  | Some p =>
      if Encrypted (heap w p) then
        match key_Decrypt eng (heap w p) (list_byte_of_string passphrase) with
        | inl err =>
            GetSigningEntity_loop eng rest passphrase
              (emit (EvKeyDecrypt p (list_byte_of_string passphrase) (Some err)) w)
        | inr m =>
            (Ret (Some e),
             emit (EvKeyDecrypt p (list_byte_of_string passphrase) None)
                  (store p {| Encrypted := false; pk_PrivateKey := Some m;
                              pk_encryptedData := pk_encryptedData (heap w p) |} w))
        end
      else (Ret (Some e), w)
  end.
Proof.
  cbn [GetSigningEntity_loop].
  destruct (e_PrivateKey e) as [p |]; [| reflexivity].
  unfold bind at 1. unfold load at 1.
  destruct (Encrypted (heap w p)) eqn:Een.
  - unfold bind at 1. unfold bind at 1. rewrite PrivateKey_Decrypt_run.
    destruct (key_Decrypt eng (heap w p) (list_byte_of_string passphrase)).
    + unfold ret at 1. unfold bind at 1. unfold load at 1.
      cbn [emit heap]. rewrite Een. reflexivity.
    + unfold ret at 1. unfold bind at 1. unfold load at 1.
      cbn [emit store heap]. rewrite Nat.eqb_refl. reflexivity.
  - unfold ret at 1. unfold bind at 1. unfold bind at 1. unfold load at 1.
    rewrite Een. reflexivity.
Qed.

(** X25.  [GetSigningEntity] decrypts at most one key: the private key of
    the entity it returns, when that key was encrypted and the passphrase
    opens it.  Every other key, the subkeys among them, is as it was, and
    the entities after the one returned are not looked at. *)
Theorem GetSigningEntity_decrypts_at_most_one
    (kr : KeyRing) (passphrase : string) (w : world) (p : ptr) :
  let run := GetSigningEntity eng kr passphrase w in
  heap (snd run) p = heap w p \/
  (exists e, fst run = Ret (Some e) /\ In e (entities kr) /\
             e_PrivateKey e = Some p /\
             Encrypted (heap w p) = true /\
             opens eng (heap w p) (list_byte_of_string passphrase) /\
             Encrypted (heap (snd run) p) = false).
Proof.
  cbn zeta. unfold GetSigningEntity. revert w.
  induction (entities kr) as [| e rest IH]; intros w; [now left |].
  assert (Hrest : forall w1,
            heap w1 = heap w ->
            heap (snd (GetSigningEntity_loop eng rest passphrase w1)) p = heap w p \/
            (exists e0,
               fst (GetSigningEntity_loop eng rest passphrase w1) = Ret (Some e0) /\
               In e0 (e :: rest) /\ e_PrivateKey e0 = Some p /\
               Encrypted (heap w p) = true /\
               opens eng (heap w p) (list_byte_of_string passphrase) /\
               Encrypted (heap (snd (GetSigningEntity_loop eng rest passphrase w1)) p)
               = false)).
  { intros w1 Hsame. destruct (IH w1) as [H | (e0 & H1 & H2 & H3 & H4 & H5 & H6)].
    - left. now rewrite H, Hsame.
    - right. exists e0. rewrite Hsame in H4, H5.
      split; [exact H1 |]. split; [now right |]. auto. }
  rewrite GetSigningEntity_loop_cons.
  destruct (e_PrivateKey e) as [q |] eqn:Eq; [| now apply Hrest].
  destruct (Encrypted (heap w q)) eqn:Een; [| now left].
  destruct (key_Decrypt eng (heap w q) (list_byte_of_string passphrase))
    as [err | m] eqn:Edec; [now apply Hrest |].
  cbn [fst snd emit store heap].
  destruct (Nat.eqb_spec p q) as [-> | Hne]; [| now left].
  right. exists e. split; [reflexivity |]. split; [now left |].
  split; [exact Eq |]. split; [exact Een |]. split; [now exists m | reflexivity].
Qed.

(** *** VerifyString, again *)

Lemma all_locked_cons (h : ptr -> packet_PrivateKey) (e : Entity) (es : list Entity) :
  all_locked h (e :: es) <-> ~ unlocked_in h e /\ all_locked h es.
Proof.
  unfold all_locked. split.
  - intros H. split; [apply H; now left |]. intros b Hin. apply H. now right.
  - intros [He Hes] b [<- | Hin]; [exact He | now apply Hes].
Qed.

(** A run of the loop of [VerifyString]: it only makes checks against
    [keyring]. *)
Lemma VerifyString_loop_run (keyring : EntityList) (es : list Entity) :
  forall (messageReader signatureReader : Reader) (err : option error) (w : world),
  exists returned err' checks,
    VerifyString_loop eng keyring es messageReader signatureReader err w
      = (Ret (returned, err'),
         {| heap := heap w; clock := clock w; trace := trace w ++ checks |}) /\
    Forall (is_check_of keyring) checks /\
    List.length checks <= List.length es /\
    (checks = [] <-> all_locked (heap w) es) /\
    (checks = [] -> returned = false /\ err' = err).
Proof.
  induction es as [| e rest IH]; intros mr sr err w.
  - exists false, err, []. cbn. rewrite app_nil_r.
    split; [destruct w; reflexivity |]. split; [constructor |].
    split; [lia |]. split; [| auto].
    split; [intros _ b [] | reflexivity].
  - cbn [VerifyString_loop]. unfold bind at 1.
    destruct (is_unlocked_run e w) as (u & Hu & Hiff). rewrite Hu.
    destruct u.
    + (* unlocked: a check is made *)
      assert (Hun : unlocked_in (heap w) e) by now apply Hiff.
      unfold bind at 1. unfold call_CheckArmoredDetachedSignature at 1.
      destruct (openpgp_CheckArmoredDetachedSignature eng w keyring mr sr)
        as [v [mr' sr']].
      set (ev := EvCheckDetached keyring mr sr).
      assert (Hev : is_check_of keyring ev) by (now exists mr, sr).
      assert (Hnot : ~ all_locked (heap w) (e :: rest)).
      { intros Hall. apply all_locked_cons in Hall. now destruct Hall. }
      destruct (tolerated v).
      * exists true, v, [ev]. split; [reflexivity |].
        split; [now constructor |]. split; [cbn; lia |].
        split; [split; [discriminate | intros H; now elim Hnot] | discriminate].
      * destruct (IH mr' sr' v (emit ev w))
          as (returned & err' & checks & Hrun & Hall & Hlen & _ & _).
        exists returned, err', (ev :: checks). rewrite Hrun.
        cbn [emit heap clock trace]. rewrite <- app_assoc.
        split; [reflexivity |]. split; [now constructor |].
        split; [cbn; lia |].
        split; [split; [discriminate | intros H; now elim Hnot] | discriminate].
    + (* locked: on to the next entity *)
      assert (Hlocked : ~ unlocked_in (heap w) e).
      { intros H. apply Hiff in H. discriminate. }
      destruct (IH mr sr err w)
        as (returned & err' & checks & Hrun & Hall & Hlen & Hnil & Hsame).
      exists returned, err', checks. split; [exact Hrun |].
      split; [exact Hall |]. split; [cbn; lia |]. split; [| exact Hsame].
      rewrite Hnil, all_locked_cons. tauto.
Qed.

(** X10.  [VerifyString] never passes the signer ring to the engine: every
    check it asks for is against the entities of the verifier ring, and the
    signer ring only says whether, and at most how often, a check is made
    (none when it has no unlocked entity, at most one per entity).  The
    keys and the clock are not touched, and without a check the result is
    [errKeyringNotUnlocked]. *)
Theorem VerifyString_checks_verifier_ring
    (kr : KeyRing) (message signature : string) (sign : option KeyRing)
    (w : world) :
  exists r checks,
    VerifyString eng kr message signature sign w
      = (Ret r, {| heap := heap w; clock := clock w;
                   trace := trace w ++ checks |}) /\
    Forall (is_check_of (entities kr)) checks /\
    List.length checks <= match sign with
                          | Some s => List.length (entities s)
                          | None => 0
                          end /\
    (checks = [] <-> forall s, sign = Some s -> all_locked (heap w) (entities s)) /\
    (checks = [] -> r = Some errKeyringNotUnlocked).
Proof.
  unfold VerifyString, bind.
  destruct sign as [s |].
  - destruct (VerifyString_loop_run (entities kr) (entities s)
                (strings_NewReader message) (strings_NewReader signature) None w)
      as (returned & err' & checks & Hrun & Hall & Hlen & Hnil & Hsame).
    rewrite Hrun.
    exists (if returned then err'
            else match err' with
                 | None => Some errKeyringNotUnlocked
                 | Some _ => err'
                 end), checks.
    split; [destruct returned; [| destruct err']; reflexivity |].
    split; [exact Hall |]. split; [exact Hlen |]. split.
    + rewrite Hnil. split; [intros H s' [= <-]; exact H | intros H; now apply H].
    + intros Hc. destruct (Hsame Hc) as [-> ->]. reflexivity.
  - exists (Some errKeyringNotUnlocked), []. cbn. rewrite app_nil_r.
    split; [destruct w; reflexivity |]. split; [constructor |].
    split; [lia |]. split; [| reflexivity].
    split; [intros _ s [=] | reflexivity].
Qed.

(** X11.  With exactly one unlocked entity in the signer ring,
    [VerifyString] makes one check, on the message and the signature as
    given, and returns the verdict of the engine whatever it is: nil,
    [ErrSignatureExpired], or the error of a wrong signature. *)
Theorem VerifyString_one_unlocked_signer
    (kr s : KeyRing) (before after : list Entity) (e : Entity)
    (message signature : string) (w : world) :
  entities s = before ++ e :: after ->
  all_locked (heap w) before ->
  all_locked (heap w) after ->
  unlocked_in (heap w) e ->
  VerifyString eng kr message signature (Some s) w
    = (Ret (fst (openpgp_CheckArmoredDetachedSignature
                   eng w (entities kr) (strings_NewReader message)
                   (strings_NewReader signature))),
       emit (EvCheckDetached (entities kr) (strings_NewReader message)
                             (strings_NewReader signature)) w).
Proof.
  intros Hes Hbefore Hafter Hu. unfold VerifyString, bind. rewrite Hes.
  rewrite VerifyString_loop_skip by exact Hbefore.
  cbn [VerifyString_loop]. unfold bind at 1.
  rewrite is_unlocked_true by exact Hu.
  unfold bind at 1. unfold call_CheckArmoredDetachedSignature at 1.
  destruct (openpgp_CheckArmoredDetachedSignature
              eng w (entities kr) (strings_NewReader message)
              (strings_NewReader signature)) as [v [mr sr]].
  cbn [fst]. destruct (tolerated v) eqn:Etol; [reflexivity |].
  rewrite <- (app_nil_r after).
  rewrite VerifyString_loop_skip by exact Hafter.
  cbn [VerifyString_loop]. unfold ret.
  destruct v as [err |]; [reflexivity | discriminate Etol].
Qed.

(** *** Signature.IsBy *)

Lemma fingerprint_eqb_spec (a b : list byte) :
  fingerprint_eqb a b = true <-> a = b.
Proof.
  revert b. induction a as [| x a IH]; intros [| y b]; cbn;
    try (split; [discriminate | discriminate]); [tauto |].
  rewrite andb_true_iff, IH. split.
  - intros [Hxy ->]. apply byte_dec_bl in Hxy. now subst.
  - intros [= -> ->]. split; [now apply byte_dec_lb | reflexivity].
Qed.

(** X12.  [IsBy] holds exactly when some entity of the ring has the
    primary key of the signer: by its fingerprint when the engine found the
    key of the signer, and otherwise by the key id of the signature.  When
    the key is known the key id plays no part. *)
Theorem Signature_IsBy_spec (s : Signature) (kr : KeyRing) :
  Signature_IsBy s kr = true <->
  exists e, In e (entities kr) /\
    match SignedBy (md s) with
    | Some signer => Fingerprint (e_PrimaryKey e) = Fingerprint signer
    | None => KeyId (e_PrimaryKey e) = SignedByKeyId (md s)
    end.
Proof.
  unfold Signature_IsBy. destruct (SignedBy (md s)) as [signer |].
  - induction (entities kr) as [| e l IH]; cbn [IsBy_fingerprint].
    + split; [discriminate | intros (e & [] & _)].
    + destruct (fingerprint_eqb (Fingerprint (e_PrimaryKey e)) (Fingerprint signer))
        eqn:E.
      * split; [| reflexivity]. intros _. exists e. split; [now left |].
        now apply fingerprint_eqb_spec.
      * rewrite IH. split.
        -- intros (e' & Hin & H). exists e'. split; [now right | exact H].
        -- intros (e' & [<- | Hin] & H); [| now exists e'].
           apply fingerprint_eqb_spec in H. congruence.
  - induction (entities kr) as [| e l IH]; cbn [IsBy_KeyId].
    + split; [discriminate | intros (e & [] & _)].
    + destruct (N.eqb_spec (KeyId (e_PrimaryKey e)) (SignedByKeyId (md s)))
        as [Heq | Hne].
      * split; [| reflexivity]. intros _. exists e. split; [now left | exact Heq].
      * rewrite IH. split.
        -- intros (e' & Hin & H). exists e'. split; [now right | exact H].
        -- intros (e' & [<- | Hin] & H); [now elim Hne | now exists e'].
Qed.

(** *** Construction, again *)

Lemma KeyRing_eta (kr : KeyRing) :
  {| entities := entities kr; FirstKeyID := FirstKeyID kr |} = kr.
Proof. destruct kr; reflexivity. Qed.

(** The outcomes of [readFrom]. *)
Lemma readFrom_cases (kr : KeyRing) (r : Reader) (armored : bool) (w : world) :
  exists kr' err,
    readFrom eng kr r armored w = (Ret (kr', err), w) /\
    (err <> None -> kr' = kr) /\
    (err = None ->
     FirstKeyID kr' = FirstKeyID kr /\
     exists added,
       added <> [] /\ entities kr' = entities kr ++ added /\
       List.length added =
       List.length (fst (if armored then openpgp_ReadArmoredKeyRing eng r
                         else openpgp_ReadKeyRing eng r))).
Proof.
  rewrite readFrom_run.
  destruct (if armored then openpgp_ReadArmoredKeyRing eng r
            else openpgp_ReadKeyRing eng r) as [parsed err].
  destruct err as [e |].
  - exists kr, (Some e). split; [reflexivity |]. split; [reflexivity | discriminate].
  - destruct parsed as [| e l].
    + exists kr, (Some NoKeyMaterial).
      split; [reflexivity |]. split; [reflexivity | discriminate].
    + eexists. exists None. split; [reflexivity |]. split; [intros H; now elim H |].
      intros _. split; [reflexivity |].
      exists (map (rebuild_entity eng (heap w) (clock w)) (e :: l)).
      split; [discriminate |]. split; [reflexivity |].
      cbn [fst]. apply length_map.
Qed.

(** X13.  [readFrom] leaves the world alone.  When it returns an error,
    the ring is as it was, whatever the engine had parsed by then.  When it
    returns none, the ring keeps its label and its entities, in their
    order, and has as many new entities behind them as the engine parsed,
    at least one. *)
Theorem readFrom_outcome (kr : KeyRing) (r : Reader) (armored : bool) (w : world) :
  exists kr' err,
    readFrom eng kr r armored w = (Ret (kr', err), w) /\
    (err <> None -> kr' = kr) /\
    (err = None ->
     FirstKeyID kr' = FirstKeyID kr /\
     exists added,
       added <> [] /\ entities kr' = entities kr ++ added /\
       List.length added =
       List.length (fst (if armored then openpgp_ReadArmoredKeyRing eng r
                         else openpgp_ReadKeyRing eng r))).
Proof. apply readFrom_cases. Qed.

Lemma KeyIds_map (kr : KeyRing) :
  KeyIds kr = map (fun e => KeyId (e_PrimaryKey e)) (entities kr).
Proof.
  unfold KeyIds.
  enough (G : forall res,
            fold_left (fun res e => res ++ [KeyId (e_PrimaryKey e)]) (entities kr) res
            = res ++ map (fun e => KeyId (e_PrimaryKey e)) (entities kr))
    by apply (G []).
  induction (entities kr) as [| e l IH]; intros res; cbn [fold_left map].
  - now rewrite app_nil_r.
  - rewrite IH. now rewrite <- app_assoc.
Qed.

(** X14.  [KeyIds] has one id for each entity, at the place of the entity
    in the ring, and a call of [readFrom] that returns no error only adds
    ids at its end. *)
Theorem KeyIds_follow_the_ring (kr : KeyRing) :
  List.length (KeyIds kr) = List.length (entities kr) /\
  (forall i e, nth_error (entities kr) i = Some e ->
               nth_error (KeyIds kr) i = Some (KeyId (e_PrimaryKey e))) /\
  (forall r armored w kr' w',
     readFrom eng kr r armored w = (Ret (kr', None), w') ->
     exists added, added <> [] /\ KeyIds kr' = KeyIds kr ++ added).
Proof.
  split; [| split].
  - rewrite KeyIds_map. apply length_map.
  - intros i e H. rewrite KeyIds_map, nth_error_map, H. reflexivity.
  - intros r armored w kr' w' Hrun.
    destruct (readFrom_cases kr r armored w) as (kr1 & err & Hrun1 & _ & Hok).
    rewrite Hrun1 in Hrun. injection Hrun as -> -> _.
    destruct (Hok eq_refl) as (_ & added & Hne & Hadd & _).
    exists (map (fun e => KeyId (e_PrimaryKey e)) added). split.
    + destruct added; [now elim Hne | discriminate].
    + rewrite !KeyIds_map, Hadd. apply map_app.
Qed.

Lemma rebuild_subkeys_same (h : ptr -> packet_PrivateKey) (now : time)
    (subkeys : list Subkey) :
  rebuild_subkeys eng h now subkeys = subkeys.
Proof.
  unfold rebuild_subkeys. generalize subkeys at 2 3.
  induction subkeys as [| sk l IH]; intros slice; [reflexivity |].
  cbn [fold_left]. apply IH.
Qed.

(** X15.  The rebuilding of public keys in [readFrom] changes nothing of
    an entity but its primary key: the pointer to its private key, its
    identities and its subkeys are as the engine parsed them, the public
    keys of the subkeys too, since the loop over the subkeys assigns to
    its own copy.  The primary key is replaced, by the key the engine
    builds from the private key, exactly when the private key of the
    entity is a decrypted ECDSA key; any other entity is left as
    parsed. *)
Theorem rebuild_entity_keeps
    (h : ptr -> packet_PrivateKey) (now : time) (e : Entity) :
  let e' := rebuild_entity eng h now e in
  e_PrivateKey e' = e_PrivateKey e /\
  e_Identities e' = e_Identities e /\
  e_Subkeys e' = e_Subkeys e /\
  (forall p id,
     e_PrivateKey e = Some p ->
     pk_PrivateKey (h p) = Some (ecdsa_PrivateKey id) ->
     e_PrimaryKey e' = NewECDSAPublicKey eng now (ecdsa_PrivateKey id)) /\
  (~ is_ecdsa h (e_PrivateKey e) -> e' = e).
Proof.
  cbn zeta. unfold rebuild_entity.
  cbn [e_PrivateKey e_Identities e_Subkeys e_PrimaryKey].
  rewrite rebuild_subkeys_same.
  split; [reflexivity |]. split; [reflexivity |]. split; [reflexivity |].
  split.
  - intros p id Hp Hk. unfold rebuild_public. now rewrite Hp, Hk.
  - intros Hno.
    assert (Hpub : rebuild_public eng h now (e_PrimaryKey e) (e_PrivateKey e)
                   = e_PrimaryKey e).
    { unfold rebuild_public. destruct (e_PrivateKey e) as [p |]; [| reflexivity].
      destruct (pk_PrivateKey (h p)) as [[id | id | id] |] eqn:E; try reflexivity.
      exfalso. apply Hno. now exists p, id. }
    rewrite Hpub. destruct e; reflexivity.
Qed.

Lemma readFrom_record (kr : KeyRing) (ko : pmKeyObject) (w : world) :
  exists err,
    readFrom eng kr (strings_NewReader (ko_PrivateKey ko)) true w
    = (Ret ({| entities := entities kr
                           ++ record_entities eng (heap w) (clock w) ko;
               FirstKeyID := FirstKeyID kr |}, err), w).
Proof.
  rewrite readFrom_run. unfold record_entities.
  destruct (openpgp_ReadArmoredKeyRing eng (strings_NewReader (ko_PrivateKey ko)))
    as [parsed err].
  destruct err as [e |].
  - exists (Some e). now rewrite app_nil_r, KeyRing_eta.
  - destruct parsed as [| e l].
    + exists (Some NoKeyMaterial). cbn [map]. now rewrite app_nil_r, KeyRing_eta.
    + exists None. reflexivity.
Qed.

Lemma UnmarshalJSON_loop_run (keyObjs : list pmKeyObject) :
  forall (kr : KeyRing) (i : nat) (w : world),
    UnmarshalJSON_loop eng kr i keyObjs w
    = (Ret {| entities := entities kr
                          ++ flat_map (record_entities eng (heap w) (clock w)) keyObjs;
              FirstKeyID := match i, keyObjs with
                            | 0, ko :: _ => ko_ID ko
                            | _, _ => FirstKeyID kr
                            end |}, w).
Proof.
  induction keyObjs as [| ko rest IH]; intros kr i w.
  - cbn. rewrite app_nil_r. destruct i; now rewrite KeyRing_eta.
  - cbn [UnmarshalJSON_loop flat_map]. unfold bind.
    destruct (readFrom_record
                (if Nat.eqb i 0
                 then {| entities := entities kr; FirstKeyID := ko_ID ko |}
                 else kr) ko w) as (err & Hrun).
    rewrite Hrun, IH. cbn [entities FirstKeyID].
    destruct i; cbn [Nat.eqb entities FirstKeyID]; now rewrite <- app_assoc.
Qed.

(** X16.  [UnmarshalJSON] first empties the ring.  The only error it
    returns is the error of the JSON decoder, and then the ring stays
    empty.  Otherwise the label of the ring becomes the id of the first
    record, when there is one, and the ring gets, record after record, the
    entities the engine parses from the armored private key of the record;
    a record whose key the engine cannot parse adds nothing and is passed
    over without an error. *)
Theorem UnmarshalJSON_outcome (kr : KeyRing) (b : list byte) (w : world) :
  exists kr',
    UnmarshalJSON eng kr b w = (Ret (kr', snd (json_Unmarshal eng b)), w) /\
    match json_Unmarshal eng b with
    | (_, Some _) => kr' = {| entities := []; FirstKeyID := FirstKeyID kr |}
    | ([], None) => kr' = {| entities := []; FirstKeyID := FirstKeyID kr |}
    | (ko :: rest, None) =>
        kr' = {| entities :=
                   flat_map (record_entities eng (heap w) (clock w)) (ko :: rest);
                 FirstKeyID := ko_ID ko |}
    end.
Proof.
  unfold UnmarshalJSON.
  destruct (json_Unmarshal eng b) as [keyObjs err]. cbn [snd].
  destruct err as [e |];
    [eexists; split; [reflexivity | destruct keyObjs; reflexivity] |].
  destruct keyObjs as [| ko rest]; [eexists; split; reflexivity |].
  cbn [List.length Nat.eqb]. unfold bind. rewrite UnmarshalJSON_loop_run.
  eexists. split; reflexivity.
Qed.

(** X17.  [BuildKeyRingArmored] against [BuildKeyRing] on the bytes that
    [Unarmor] gives for the key.  When the engine cannot parse them, both
    return its error, but [BuildKeyRingArmored] returns the entities
    parsed so far with it.  When the engine parses no entity,
    [BuildKeyRing] fails with [NoKeyMaterial] and [BuildKeyRingArmored]
    returns an empty ring and no error.  Otherwise both return no error,
    and [BuildKeyRingArmored] returns the entities as parsed, without the
    rebuilding of public keys.  The error of [Unarmor] is not looked at. *)
Theorem BuildKeyRingArmored_against_BuildKeyRing (key : string) (w : world) :
  let raw := fst (armorUtils_Unarmor eng key) in
  let parsed := fst (openpgp_ReadKeyRing eng (bytes_NewReader raw)) in
  BuildKeyRingArmored eng key w
    = (Ret ({| entities := parsed; FirstKeyID := "" |},
            snd (openpgp_ReadKeyRing eng (bytes_NewReader raw))), w) /\
  match openpgp_ReadKeyRing eng (bytes_NewReader raw) with
  | (_, Some e) => BuildKeyRing eng raw w = (Ret (new_KeyRing, Some e), w)
  | ([], None) => BuildKeyRing eng raw w = (Ret (new_KeyRing, Some NoKeyMaterial), w)
  | (_ :: _, None) =>
      BuildKeyRing eng raw w
      = (Ret ({| entities := map (rebuild_entity eng (heap w) (clock w)) parsed;
                 FirstKeyID := "" |}, None), w)
  end.
Proof.
  cbn zeta. unfold BuildKeyRingArmored, BuildKeyRing.
  destruct (armorUtils_Unarmor eng key) as [raw err0]. cbn [fst].
  rewrite readFrom_run.
  destruct (openpgp_ReadKeyRing eng (bytes_NewReader raw)) as [parsed err].
  split; [reflexivity |].
  destruct err; destruct parsed; reflexivity.
Qed.

(** X18.  [BuildKeyRingNoError] returns the ring of [BuildKeyRing] and
    drops its error; the ring it returns has no entity exactly when
    [BuildKeyRing] failed. *)
Theorem BuildKeyRingNoError_empty_iff (binKeys : list byte) (w : world) :
  exists kr' err,
    BuildKeyRing eng binKeys w = (Ret (kr', err), w) /\
    BuildKeyRingNoError eng binKeys w = (Ret kr', w) /\
    (entities kr' = [] <-> err <> None).
Proof.
  unfold BuildKeyRingNoError, bind.
  destruct (readFrom_cases new_KeyRing (bytes_NewReader binKeys) false w)
    as (kr' & err & Hrun & Hfail & Hok).
  unfold BuildKeyRing. rewrite Hrun. exists kr', err.
  split; [reflexivity |]. split; [reflexivity |].
  destruct err as [e |].
  - rewrite Hfail by discriminate. split; [discriminate | reflexivity].
  - destruct (Hok eq_refl) as (_ & added & Hne & Hadd & _).
    cbn in Hadd. rewrite Hadd. split; [intros H; now elim Hne | intros H; now elim H].
Qed.

(** *** FilterExpiredKeys, again *)

Lemma filter_idempotent {A} (f : A -> bool) (l : list A) :
  filter f (filter f l) = filter f l.
Proof.
  induction l as [| x l IH]; [reflexivity |].
  cbn [filter]. destruct (f x) eqn:E; [| exact IH].
  cbn [filter]. now rewrite E, IH.
Qed.

(** X19.  [FilterExpiredKeys] on its own result.  The rings it keeps come
    back whole, with their expired entities and subkeys, so a second call
    tests the same rings again, at the time of that call: it can only drop
    rings, and when the clock reads the same time at the second call as at
    the first, it returns the same rings and no error. *)
Theorem FilterExpiredKeys_again (contactKeys : list KeyRing) (w w2 : world) :
  let kept := filter (ring_keptb eng (clock w)) contactKeys in
  (exists err, FilterExpiredKeys eng contactKeys w = (Ret (kept, err), w)) /\
  (exists err2,
     FilterExpiredKeys eng kept w2
       = (Ret (filter (ring_keptb eng (clock w2)) kept, err2), w2)) /\
  (forall kr, In kr (filter (ring_keptb eng (clock w2)) kept) ->
              In kr kept /\ In kr contactKeys) /\
  (clock w2 = clock w ->
   FilterExpiredKeys eng kept w2 = (Ret (kept, None), w2)).
Proof.
  assert (Hrun : forall l w0,
    FilterExpiredKeys eng l w0 =
    (Ret (filter (ring_keptb eng (clock w0)) l,
          if Nat.eqb (List.length (filter (ring_keptb eng (clock w0)) l)) 0
             && existsb (fun kr => negb (ring_keptb eng (clock w0) kr)
                                   && ring_has_totally_expired_entityb
                                        eng (clock w0) kr) l
          then Some AllKeysExpired else None), w0)).
  { intros l w0. unfold FilterExpiredKeys, bind, time_Now.
    rewrite scan_rings_eq.
    destruct (Nat.eqb (List.length (filter (ring_keptb eng (clock w0)) l)) 0
              && existsb _ l); reflexivity. }
  cbn zeta. split; [eexists; apply Hrun |]. split; [eexists; apply Hrun |].
  split.
  - intros kr Hin. apply filter_In in Hin. destruct Hin as [Hin _].
    split; [exact Hin |]. now apply filter_In in Hin.
  - intros Hclock. rewrite Hrun, Hclock, filter_idempotent.
    assert (Hflag : existsb (fun kr => negb (ring_keptb eng (clock w) kr)
                                       && ring_has_totally_expired_entityb
                                            eng (clock w) kr)
                            (filter (ring_keptb eng (clock w)) contactKeys) = false).
    { induction contactKeys as [| kr l IH]; [reflexivity |].
      cbn [filter]. destruct (ring_keptb eng (clock w) kr) eqn:E; [| exact IH].
      cbn [existsb]. now rewrite E, IH. }
    rewrite Hflag, andb_false_r. reflexivity.
Qed.

(** *** DecryptStringIfNeeded *)

Lemma strip_prefix_spec (p s r : string) :
  strip_prefix p s = Some r <-> s = (p ++ r)%string.
Proof.
  revert s. induction p as [| c p IH]; intros s; cbn [strip_prefix String.append].
  - split; [intros [= ->]; reflexivity | intros ->; reflexivity].
  - destruct s as [| d s]; [split; discriminate |].
    destruct (Ascii.eqb_spec c d) as [-> | Hne].
    + rewrite IH. split; [intros ->; reflexivity | intros [= ->]; reflexivity].
    + split; [discriminate | intros [= H _]; now elim Hne].
Qed.

Lemma occurs_spec (needle s : string) :
  occurs needle s = true <-> exists x y, s = (x ++ needle ++ y)%string.
Proof.
  induction s as [| c s IH].
  - cbn [occurs]. destruct (strip_prefix needle "") as [r |] eqn:E.
    + split; [| reflexivity]. intros _. apply strip_prefix_spec in E.
      exists ""%string, r. exact E.
    + split; [discriminate |]. intros (x & y & H).
      destruct x as [| d x]; [| discriminate H].
      cbn in H. apply strip_prefix_spec in H. congruence.
  - cbn [occurs]. destruct (strip_prefix needle (String c s)) as [r |] eqn:E.
    + split; [| reflexivity]. intros _. apply strip_prefix_spec in E.
      exists ""%string, r. exact E.
    + rewrite IH. split.
      * intros (x & y & ->). now exists (String c x), y.
      * intros (x & y & H). destruct x as [| d x].
        -- cbn in H. apply strip_prefix_spec in H. congruence.
        -- injection H as _ ->. now exists x, y.
Qed.

(** X20.  The test of [DecryptStringIfNeeded] accepts exactly the texts
    that start with the first line of a PGP message armor and have its last
    line somewhere after at least one more character; what follows the
    last line does not matter. *)
Theorem matches_armored_message_spec (data : string) :
  matches_armored_message data = true <->
  exists middle rest,
    middle <> ""%string /\
    data = (armor_begin ++ middle ++ armor_end ++ rest)%string.
Proof.
  unfold matches_armored_message.
  destruct (strip_prefix armor_begin data) as [tail |] eqn:E.
  - apply strip_prefix_spec in E. subst data. destruct tail as [| c tail].
    + split; [discriminate |]. intros (middle & rest & Hne & H).
      apply strip_prefix_spec in H.
      rewrite (proj2 (strip_prefix_spec armor_begin _ ""%string) eq_refl) in H.
      destruct middle; [now elim Hne | discriminate H].
    + rewrite occurs_spec. split.
      * intros (x & y & ->). exists (String c x), y. split; [discriminate | reflexivity].
      * intros (middle & rest & Hne & H).
        apply strip_prefix_spec in H.
        rewrite (proj2 (strip_prefix_spec armor_begin _ (String c tail)) eq_refl) in H.
        destruct middle as [| d middle]; [now elim Hne |].
        injection H as _ ->. now exists middle, rest.
  - split; [discriminate |]. intros (middle & rest & _ & H).
    apply strip_prefix_spec in H. congruence.
Qed.

Lemma DecryptString_error_shape (kr : KeyRing) (encrypted : string) (w w' : world)
    (ss : SignedString) (e : error) :
  DecryptString eng kr encrypted w = (Ret (ss, Some e), w') ->
  ss = untouched encrypted /\ w' = w /\ e <> ErrSignatureExpired.
Proof.
  rewrite DecryptString_run.
  assert (Hret : forall err,
            hard err = true ->
            (Ret (untouched encrypted, err), w) = (Ret (ss, Some e), w') ->
            ss = untouched encrypted /\ w' = w /\ e <> ErrSignatureExpired).
  { intros err Hh [= <- -> <-]. split; [reflexivity |].
    split; [reflexivity | now apply hard_Some]. }
  destruct (armor_Decode eng (strings_NewReader encrypted)) as [block err0].
  destruct (hard err0) eqn:E0; [now apply Hret |].
  destruct block as [block |]; [| discriminate].
  destruct (negb (String.eqb (Type_ block) PGPMessageHeader));
    [now apply Hret |].
  destruct (openpgp_ReadMessage eng w (Body block) (entities kr))
    as [details err1].
  destruct (hard err1) eqn:E1; [now apply Hret |].
  destruct details as [details |]; [| discriminate].
  cbn zeta.
  destruct (hard (r_err (UnverifiedBody details))) eqn:E2;
    [now apply Hret | discriminate].
Qed.

(** X21.  [DecryptStringIfNeeded] does not lose its input.  A text that
    does not pass the test comes back as it is, with no error and no call
    to the engine.  A text that passes is given to [DecryptString], whose
    string and error are returned; so whenever an error is returned, the
    string next to it is the input. *)
Theorem DecryptStringIfNeeded_keeps_input (kr : KeyRing) (data : string) (w : world) :
  (matches_armored_message data = false ->
   DecryptStringIfNeeded eng kr data w = (Ret (data, None), w)) /\
  (matches_armored_message data = true ->
   forall ss err w',
     DecryptString eng kr data w = (Ret (ss, err), w') ->
     DecryptStringIfNeeded eng kr data w = (Ret (String_ ss, err), w')) /\
  (forall s e w',
     DecryptStringIfNeeded eng kr data w = (Ret (s, Some e), w') ->
     s = data /\ w' = w /\ e <> ErrSignatureExpired /\
     matches_armored_message data = true).
Proof.
  unfold DecryptStringIfNeeded.
  destruct (matches_armored_message data).
  - split; [discriminate |]. split.
    + intros _ ss err w' Hrun. unfold bind. rewrite Hrun. reflexivity.
    + intros s e w'. unfold bind.
      destruct (DecryptString eng kr data w) as [[[ss err] |] w1] eqn:Hrun;
        [| discriminate].
      intros [= <- -> <-].
      destruct (DecryptString_error_shape _ _ _ Hrun) as (-> & -> & He).
      cbn. auto.
  - split; [reflexivity |]. split; [discriminate |].
    intros s e w' [=].
Qed.

End MoreProperties.

(** *** Armored writers *)

Section ArmoredProperties.

Variable eng : PgpEngine.
Variable arm : ArmorWriters.

(** X22.  When the armor stream opens and no entity of the signer ring is
    unlocked, [EncryptArmored] closes the armor stream it opened, drops
    what closing it answers, and returns [errKeyringNotUnlocked] and no
    writer: the one call to the engine is this close. *)
Theorem EncryptArmored_locked_signer
    (kr signer : KeyRing) (out : Writer) (w : world) :
  snd (armor_open arm w out PGPMessageHeader) = None ->
  all_locked (heap w) (entities signer) ->
  EncryptArmored eng arm kr out (Some signer) w
    = (Ret (None, Some errKeyringNotUnlocked),
       emit (EvClose (fst (armor_open arm w out PGPMessageHeader))) w).
Proof.
  intros Hopen Hlocked. unfold EncryptArmored, bind, call_armor_open.
  destruct (armor_open arm w out PGPMessageHeader) as [aw err0].
  cbn in Hopen. subst err0. cbn [fst].
  unfold Encrypt, bind. rewrite (first_unlocked_none _ _ Hlocked).
  reflexivity.
Qed.

(** X23.  When the armor stream cannot be opened, [EncryptArmored]
    returns the error and calls nothing else.  When it opens and the
    engine gives an encryption stream, the writer returned holds the two,
    the encryption is binary, with no file name, and writes into the armor
    stream; closing that writer then closes the encryption stream and,
    unless that fails, the armor stream after it. *)
Theorem EncryptArmored_then_Close
    (kr : KeyRing) (out : Writer) (w : world) (aw id : nat) :
  let hints := {| IsBinary := true; FileName := "" |} in
  let to := firstn 1 (entities kr) in
  let opened := EvEncrypt false aw to None hints the_config in
  (forall e sign,
     armor_open arm w out PGPMessageHeader = (aw, Some e) ->
     EncryptArmored eng arm kr out sign w = (Ret (None, Some e), w)) /\
  (armor_open arm w out PGPMessageHeader = (aw, None) ->
   openpgp_Encrypt eng w false aw to None hints the_config
     = (Some (engine_stream id), None) ->
   EncryptArmored eng arm kr out None w
     = (Ret (Some {| aw_of := engine_stream aw;
                     ew_of := Some (engine_stream id) |}, None),
        emit opened w) /\
   Close eng (armorEncryptWriter (engine_stream aw) (engine_stream id))
         (emit opened w)
     = match stream_Close eng (emit opened w) id with
       | Some err => (Ret (Some err), emit (EvClose id) (emit opened w))
       | None =>
           (Ret (stream_Close eng (emit (EvClose id) (emit opened w)) aw),
            emit (EvClose aw) (emit (EvClose id) (emit opened w)))
       end).
Proof.
  cbn zeta. split.
  - intros e sign Hopen. unfold EncryptArmored, bind, call_armor_open.
    rewrite Hopen. reflexivity.
  - intros Hopen Hstream. split; [| apply armorEncryptWriter_Close_streams].
    assert (Hto : Encrypt_targets (entities kr) = firstn 1 (entities kr)).
    { destruct (entities kr); reflexivity. }
    unfold EncryptArmored, bind, call_armor_open. rewrite Hopen.
    unfold Encrypt, EncryptCore, call_Encrypt. rewrite Hto.
    unfold the_config in Hstream. cbn [negb]. rewrite Hstream. reflexivity.
Qed.

Lemma WriteArmoredPublicKey_loop_run (es : list Entity) (aw : nat) (w : world) :
  WriteArmoredPublicKey_loop eng arm es aw w =
  match first_Serialize_error arm w es aw with
  | Some err => (Ret (Some err), emit (EvClose aw) w)
  | None => (Ret None, w)
  end.
Proof.
  induction es as [| e rest IH]; [reflexivity |].
  cbn [WriteArmoredPublicKey_loop first_Serialize_error].
  unfold bind at 1. unfold call_Serialize at 1.
  destruct (Entity_Serialize arm w e aw) as [err |]; [reflexivity | exact IH].
Qed.

(** X24.  [WriteArmoredPublicKey] closes the armor stream exactly once on
    every path on which it opened it, and makes no other call to the
    engine's streams.  When an entity cannot be serialized, the error of
    the first such entity in ring order is returned and what closing the
    stream answers is dropped; otherwise the answer of the close is the
    result.  When the stream cannot be opened nothing is closed. *)
Theorem WriteArmoredPublicKey_closes_once (kr : KeyRing) (out : Writer) (w : world) :
  WriteArmoredPublicKey eng arm kr out w =
  let aw := fst (armor_open arm w out PublicKeyType) in
  match snd (armor_open arm w out PublicKeyType) with
  | Some err => (Ret (Some err), w)
  | None =>
      (Ret (match first_Serialize_error arm w (entities kr) aw with
            | Some err => Some err
            | None => stream_Close eng w aw
            end),
       emit (EvClose aw) w)
  end.
Proof.
  unfold WriteArmoredPublicKey, bind, call_armor_open.
  destruct (armor_open arm w out PublicKeyType) as [aw err0]. cbn [fst snd].
  destruct err0 as [err |]; [reflexivity |].
  rewrite WriteArmoredPublicKey_loop_run.
  destruct (first_Serialize_error arm w (entities kr) aw); reflexivity.
Qed.

End ArmoredProperties.

(** ** The further properties at work *)

Example Unlock_twice_fails :
  let once := snd (Unlock Demo.engine Demo.locked_ring (list_byte_of_string "a")
                          Demo.start) in
  fst (Unlock Demo.engine Demo.locked_ring (list_byte_of_string "a") Demo.start)
    = Ret None /\
  fst (Unlock Demo.engine Demo.locked_ring (list_byte_of_string "a") once)
    = Ret (Some (EngineError 1)).
Proof. split; reflexivity. Qed.

Example matches_armored_message_runs :
  matches_armored_message DemoMore.armored_text = true /\
  matches_armored_message DemoMore.empty_armor = false /\
  matches_armored_message "-----BEGIN PGP MESSAGE-----body" = false /\
  matches_armored_message (" " ++ DemoMore.armored_text) = false.
Proof. repeat split; reflexivity. Qed.

Example DecryptStringIfNeeded_runs :
  DecryptStringIfNeeded Demo.engine (Demo.ring []) "hello" Demo.start
    = (Ret ("hello", None), Demo.start) /\
  DecryptStringIfNeeded Demo.engine (Demo.ring []) DemoMore.empty_armor Demo.start
    = (Ret (DemoMore.empty_armor, None), Demo.start).
Proof. split; reflexivity. Qed.

Example WriteArmoredPublicKey_runs :
  let good := WriteArmoredPublicKey Demo.engine DemoMore.armor Demo.public_ring 1
                                    Demo.start in
  let bad := WriteArmoredPublicKey Demo.engine DemoMore.armor
               (Demo.ring [DemoMore.entity_13; Demo.entity None []]) 1 Demo.start in
  fst good = Ret None /\ trace (snd good) = [EvClose 11] /\
  fst bad = Ret (Some (EngineError 9)) /\ trace (snd bad) = [EvClose 11] /\
  WriteArmoredPublicKey Demo.engine DemoMore.armor Demo.public_ring 9 Demo.start
    = (Ret (Some (EngineError 8)), Demo.start).
Proof. repeat split; reflexivity. Qed.

Example Signature_IsBy_runs :
  let by_id := {| md := {| IsSigned := true; SignedByKeyId := 13%N; SignedBy := None;
                           SignatureError := None;
                           UnverifiedBody := bytes_NewReader [] |} |} in
  Signature_IsBy by_id (Demo.ring [Demo.entity None []; DemoMore.entity_13]) = true /\
  Signature_IsBy by_id Demo.public_ring = false.
Proof. split; reflexivity. Qed.

(** X2 at work: the subkey of the locked ring stays locked under ["a"]. *)
Lemma Unlock_leaves_encrypted_iff_witness :
  unlock_component Demo.locked_ring 1 /\
  (Encrypted (heap (snd (Unlock Demo.engine Demo.locked_ring
                                (list_byte_of_string "a") Demo.start)) 1) = true
   <-> Encrypted (heap Demo.start 1) = true /\
       rejects Demo.engine (heap Demo.start 1) (list_byte_of_string "a")).
Proof.
  assert (H : unlock_component Demo.locked_ring 1).
  { eexists. split; [now left |]. right.
    eexists. split; [now left |]. split; [reflexivity |].
    right. left. reflexivity. }
  split; [exact H |].
  exact (@Unlock_leaves_encrypted_iff Demo.engine Demo.locked_ring
           (list_byte_of_string "a") Demo.start 1 H).
Defined.

(** X5 at work: a wrong passphrase on a ring that is unlocked. *)
Lemma Unlock_of_unlocked_ring_witness :
  Unlock_keys Demo.unlocked_ring <> [] /\
  (forall p, unlock_component Demo.unlocked_ring p ->
             Encrypted (heap Demo.start p) = false) /\
  Unlock Demo.engine Demo.unlocked_ring (list_byte_of_string "z") Demo.start
    = (Ret None, Demo.start).
Proof.
  assert (H1 : Unlock_keys Demo.unlocked_ring <> []) by (cbv; discriminate).
  assert (H2 : forall p, unlock_component Demo.unlocked_ring p ->
                         Encrypted (heap Demo.start p) = false).
  { intros p (e & [<- | []] & [Hp | (sk & [] & _)]).
    cbn in Hp. injection Hp as <-. reflexivity. }
  split; [exact H1 |]. split; [exact H2 |].
  exact (@Unlock_of_unlocked_ring Demo.engine Demo.unlocked_ring
           (list_byte_of_string "z") Demo.start H1 H2).
Defined.

(** X8 at work: a text signature with the unlocked ring. *)
Lemma DetachedSign_call_witness :
  let e := Demo.entity (Some 2) [] in
  unlocked_in (heap Demo.start) e /\
  DetachedSign Demo.engine Demo.unlocked_ring 0 (strings_NewReader "text")
               true false Demo.start
    = (Ret None,
       emit (EvDetachSign ArmoredDetachSignText 0 e (strings_NewReader "text")
                          the_config) Demo.start).
Proof.
  cbn zeta.
  assert (Hu : unlocked_in (heap Demo.start) (Demo.entity (Some 2) [])).
  { exists 2. split; reflexivity. }
  split; [exact Hu |].
  exact (proj1 (@DetachedSign_call Demo.engine Demo.unlocked_ring [] []
                  (Demo.entity (Some 2) []) 0 (strings_NewReader "text") true false
                  Demo.start eq_refl (fun e (H : In e []) => match H with end)
                  Hu)).
Defined.

(** X9 at work: encryption on a ring with no entity, signed. *)
Lemma Encrypt_call_witness :
  let e := Demo.entity (Some 2) [] in
  unlocked_in (heap Demo.start) e /\
  Encrypt Demo.engine (Demo.ring []) 0 (Some Demo.unlocked_ring) "f" true Demo.start
    = (Ret (Some (engine_stream 1), None),
       emit (EvEncrypt true 0 [] (Some e) {| IsBinary := false; FileName := "f" |}
                       the_config) Demo.start).
Proof.
  cbn zeta.
  assert (Hu : unlocked_in (heap Demo.start) (Demo.entity (Some 2) [])).
  { exists 2. split; reflexivity. }
  split; [exact Hu |].
  apply (@Encrypt_call Demo.engine (Demo.ring []) 0 (Some Demo.unlocked_ring) "f" true
                       (Some (Demo.entity (Some 2) [])) Demo.start).
  right. exists Demo.unlocked_ring, (Demo.entity (Some 2) []), [], [].
  split; [reflexivity |]. split; [reflexivity |]. split; [reflexivity |].
  split; [intros e [] | exact Hu].
Defined.

(** X11 at work: a wrong signature checked with the unlocked ring. *)
Lemma VerifyString_one_unlocked_signer_witness :
  unlocked_in (heap Demo.start) (Demo.entity (Some 2) []) /\
  VerifyString Demo.engine Demo.public_ring "text" "bad"
               (Some Demo.unlocked_ring) Demo.start
    = (Ret (Some (EngineError 4)),
       emit (EvCheckDetached (entities Demo.public_ring)
                             (strings_NewReader "text") (strings_NewReader "bad"))
            Demo.start).
Proof.
  assert (Hu : unlocked_in (heap Demo.start) (Demo.entity (Some 2) [])).
  { exists 2. split; reflexivity. }
  split; [exact Hu |].
  exact (@VerifyString_one_unlocked_signer
           Demo.engine Demo.public_ring Demo.unlocked_ring [] []
           (Demo.entity (Some 2) []) "text" "bad" Demo.start eq_refl
           (fun e (H : In e []) => match H with end)
           (fun e (H : In e []) => match H with end) Hu).
Defined.

(** X22 at work: armored encryption signed with a locked ring. *)
Lemma EncryptArmored_locked_signer_witness :
  snd (armor_open DemoMore.armor Demo.start 1 PGPMessageHeader) = None /\
  all_locked (heap Demo.start) (entities Demo.locked_ring) /\
  EncryptArmored Demo.engine DemoMore.armor Demo.public_ring 1
                 (Some Demo.locked_ring) Demo.start
    = (Ret (None, Some errKeyringNotUnlocked), emit (EvClose 11) Demo.start).
Proof.
  assert (H : all_locked (heap Demo.start) (entities Demo.locked_ring)).
  { intros e [<- | []] (p & Hp & Hen). cbn in Hp. injection Hp as <-.
    cbn in Hen. discriminate Hen. }
  split; [reflexivity |]. split; [exact H |].
  exact (@EncryptArmored_locked_signer Demo.engine DemoMore.armor Demo.public_ring
           Demo.locked_ring 1 Demo.start eq_refl H).
Defined.
